(** * Snake: grid model, coordinate transform, snake movement, cheese spawning

    A shallow embedding of [app.component.ts] (the revision with
    [Snake.eat], [restart] and [gameOver]).

    Conventions of the embedding.
    - A TypeScript [number] holding a grid coordinate, a food amount or a
      domain bound is a [Z]: every such value in the program is an integer
      far below 2^53, where IEEE doubles are exact.
    - [Math.random()] is a draw [r : Q] with [0 <= r < 1]; the product
      [r * n] under [Math.floor] is taken exactly.
    - A [Position] is an object: [_ !== head] compares references, so every
      position carries the identity [oid] it received when it was allocated,
      and the allocation counter is threaded through the code that calls
      [new Position].
    - A call can return, throw a [TypeError] (property access on
      [undefined]) or loop forever; see [outcome].
    - The pixel mapping ([applyRange], [widths.cell]) and the canvas calls
      only read the state and are left out. *)

From Stdlib Require Import ZArith List Lia Bool QArith Qround.
From Stdlib Require String.
Import ListNotations.

#[local] Open Scope Z_scope.

(** ** Outcomes and the allocation monad *)

Inductive outcome (A : Type) : Type :=
| Returns (a : A)
| Throws
| Diverges.

Arguments Returns {A} a.
Arguments Throws {A}.
Arguments Diverges {A}.

(** A computation that may allocate objects: it receives the next free
    object identity and hands back the one after its allocations. *)
Definition M (A : Type) : Type := nat -> outcome (A * nat).

Definition ret {A} (a : A) : M A := fun n => Returns (a, n).

Definition bind {A B} (m : M A) (k : A -> M B) : M B :=
  fun n =>
    match m n with
    | Returns (a, n') => k a n'
    | Throws => Throws
    | Diverges => Diverges
    end.

Definition lift {A} (o : outcome A) : M A :=
  fun n =>
    match o with
    | Returns a => Returns (a, n)
    | Throws => Throws
    | Diverges => Diverges
    end.

Definition throw {A} : M A := fun _ => Throws.

Definition fresh : M nat := fun n => Returns (n, S n).

Notation "x <- m ;; k" := (bind m (fun x => k))
  (at level 61, m at next level, right associativity).

(** JavaScript indexing [a[i]] of an array by an integer-valued number:
    [undefined] outside the array. *)
Definition array_get {A} (a : list A) (i : Z) : option A :=
  if i <? 0 then None else nth_error a (Z.to_nat i).

(** [Math.floor(Math.random() * n)] for the draw [r]. *)
Definition floor_random (r : Q) (n : Z) : Z :=
  Qfloor (Qmult r (inject_Z n)).

(** The values [lo, lo+1, ..., hi-1] a loop
    [for (let v = lo; v < hi; v++)] goes through. *)
Definition Zrange (lo hi : Z) : list Z :=
  map (fun i => lo + Z.of_nat i) (seq 0 (Z.to_nat (hi - lo))).

(** ** PositionContext *)

Definition Interval : Type := (Z * Z)%type.

Module Interval2D.
Record t : Type := { x : Interval; y : Interval }.
End Interval2D.

Module AxisPositionContext.
(** [widths.cell] is a floating-point quotient used by the drawing code
    only. *)
Record Widths : Type := { w_range : Z; w_domain : Z }.

Record t : Type := {
  domain : Interval;
  range : Interval;
  widths : Widths
}.
End AxisPositionContext.

Module PositionContext.
Import AxisPositionContext.

Record t : Type := {
  _x : AxisPositionContext.t;
  _y : AxisPositionContext.t
}.

Definition getWidths (domain range : Interval) : Widths :=
  let rw := snd range - fst range in
  let dw := snd domain - fst domain in
  {| w_range := rw; w_domain := dw |}.

Definition new (domain range : Interval2D.t) : t :=
  {| _x := {| domain := Interval2D.x domain;
              range := Interval2D.x range;
              widths := getWidths (Interval2D.x domain) (Interval2D.x range) |};
     _y := {| domain := Interval2D.y domain;
              range := Interval2D.y range;
              widths := getWidths (Interval2D.y domain) (Interval2D.y range) |} |}.

(** The two [while] loops of [applyDomainVector], each with a bound on
    the number of iterations; [None] means the bound was reached with the
    loop condition still true. *)
Fixpoint while_below (fuel : nat) (context : AxisPositionContext.t)
  (val : Z) : option Z :=
  if val <? fst (domain context) then
    match fuel with
    | O => None
    | S fuel' =>
        while_below fuel' context (val + w_domain (widths context))
    end
  else Some val.

Fixpoint while_above (fuel : nat) (context : AxisPositionContext.t)
  (val : Z) : option Z :=
  if val >=? snd (domain context) then
    match fuel with
    | O => None
    | S fuel' =>
        while_above fuel' context
          (fst (domain context) + (val - snd (domain context)))
    end
  else Some val.

Definition applyDomainVector_fuel (fuel : nat) (val : Z)
  (context : AxisPositionContext.t) : option Z :=
  match while_below fuel context val with
  | Some v => while_above fuel context v
  | None => None
  end.

(** The loops are run with as many iterations as they can need: a loop
    that stops at all stops within this bound, so [Diverges] below is
    exactly "no number of iterations ends the loop"
    (lemma [applyDomainVector_adequate]). *)
Definition below_bound (context : AxisPositionContext.t) (val : Z) : nat :=
  Z.to_nat (fst (domain context) - val).

Definition above_bound (context : AxisPositionContext.t) (val : Z) : nat :=
  Z.to_nat (val - snd (domain context) + 1).

Definition applyDomainVector (val : Z) (context : AxisPositionContext.t)
  : outcome Z :=
  match while_below (below_bound context val) context val with
  | Some v =>
      match while_above (above_bound context v) context v with
      | Some v' => Returns v'
      | None => Diverges
      end
  | None => Diverges
  end.

Definition applyDomain (x y : Z) (this : t) : outcome (Z * Z) :=
  match applyDomainVector x (_x this) with
  | Returns x' =>
      match applyDomainVector y (_y this) with
      | Returns y' => Returns (x', y')
      | Throws => Throws
      | Diverges => Diverges
      end
  | Throws => Throws
  | Diverges => Diverges
  end.
End PositionContext.

(** An axis as [PositionContext]'s constructor builds it from a non-empty
    domain: the stored width is the domain's, and it is positive. *)
Definition valid_axis (a : AxisPositionContext.t) : Prop :=
  let d := AxisPositionContext.domain a in
  let w := AxisPositionContext.w_domain (AxisPositionContext.widths a) in
  w = snd d - fst d /\ 0 < w.

Definition valid_context (c : PositionContext.t) : Prop :=
  valid_axis (PositionContext._x c) /\ valid_axis (PositionContext._y c).

(** ** Position *)

Module Position.
(** [oid] is the identity of the object, the other fields are the
    constructor's parameter properties. *)
Record t : Type := {
  oid : nat;
  _x : Z;
  _y : Z;
  _context : PositionContext.t
}.

Definition new (x y : Z) (context : PositionContext.t) : M t :=
  xy <- lift (PositionContext.applyDomain x y context) ;;
  o <- fresh ;;
  ret {| oid := o; _x := fst xy; _y := snd xy; _context := context |}.

Definition createModified (this : t) (dx dy : Z) : M t :=
  let x := _x this + dx in
  let y := _y this + dy in
  new x y (_context this).

(** The argument of [equals]: a [Position], a coordinate pair, or a
    falsy value ([undefined], [null]). *)
Inductive arg : Type :=
| Undefined
| APosition (p : t)
| APair (xy : Z * Z).

Definition of_option (o : option t) : arg :=
  match o with
  | Some p => APosition p
  | None => Undefined
  end.

Definition equals (this : t) (other : arg) : bool :=
  match other with
  | Undefined => false
  | APosition p => (_x p =? _x this) && (_y p =? _y this)
  | APair xy => (fst xy =? _x this) && (snd xy =? _y this)
  end.

(** [a !== b], where [b] may be [undefined]. *)
Definition not_same (a : t) (b : option t) : bool :=
  match b with
  | Some p => negb (Nat.eqb (oid a) (oid p))
  | None => true
  end.
Definition getIndex (this : t) : Z :=
  let x := _x this
           - fst (AxisPositionContext.domain
                    (PositionContext._x (_context this))) in
  let y := _y this
           - fst (AxisPositionContext.domain
                    (PositionContext._y (_context this))) in
  x + AxisPositionContext.w_domain
        (AxisPositionContext.widths (PositionContext._x (_context this))) * y.

(** [index % w] has the sign of [index] ([Z.rem]); [Math.floor(index / w)]
    is the floor of the quotient ([Z.div]: for integers below 2^53 the
    rounded quotient lies on the same side of every integer as the exact
    one).  With [w = 0] the two are [NaN] and an infinity, which no [Z]
    stands for: the model has no answer there, [None]. *)
Definition fromIndex (index : Z) (context : PositionContext.t)
  : option (M t) :=
  let w := AxisPositionContext.w_domain
             (AxisPositionContext.widths (PositionContext._x context)) in
  if w =? 0 then None
  else
    let x := Z.rem index w
             + fst (AxisPositionContext.domain (PositionContext._x context)) in
    let y := index / w
             + fst (AxisPositionContext.domain (PositionContext._y context)) in
    Some (new x y context).
End Position.

(** ** Direction *)

Module Direction.
Record t : Type := { _dx : Z; _dy : Z }.

(** [position.createModified] on [undefined] is a [TypeError]. *)
Definition applyTo (this : t) (position : option Position.t)
  : M Position.t :=
  match position with
  | Some p => Position.createModified p (_dx this) (_dy this)
  | None => throw
  end.

Definition isTurn (this previous : t) : bool :=
  negb ((_dx this =? _dx previous) || (_dx this =? - _dx previous))
  && negb ((_dy this =? _dy previous) || (_dy this =? - _dy previous)).
End Direction.

(** ** Cheese *)

Module Cheese.
Record t : Type := { _position : Position.t; _food : Z }.
End Cheese.

(** ** Snake *)

Module Snake.
(** [_nextDirection] is [None] while it is [undefined] or [null].  The
    subject [_died$] has one effect in the program, on the component that
    subscribes to it; see [AppComponent.tick]. *)
Record t : Type := {
  _nextDirection : option Direction.t;
  _direction : Direction.t;
  _segments : list Position.t;
  _food : Z;
  _dead : bool
}.

Definition head (this : t) : option Position.t :=
  hd_error (_segments this).

Definition new (start : Position.t) (initialFood : Z)
  (initialDirection : Direction.t) : t :=
  {| _nextDirection := None;
     _direction := initialDirection;
     _segments := [start];
     _food := initialFood;
     _dead := false |}.

(** The setter [set direction]. *)
Definition set_direction (this : t) (newDirection : Direction.t) : t :=
  {| _nextDirection := Some newDirection;
     _direction := _direction this;
     _segments := _segments this;
     _food := _food this;
     _dead := _dead this |}.

Definition eat (this : t) (cheese : Cheese.t) : t :=
  {| _nextDirection := _nextDirection this;
     _direction := _direction this;
     _segments := _segments this;
     _food := _food this + Cheese._food cheese;
     _dead := _dead this |}.

Definition kill (this : t) : t :=
  {| _nextDirection := _nextDirection this;
     _direction := _direction this;
     _segments := _segments this;
     _food := _food this;
     _dead := true |}.

(** The first statement of [tick]. *)
Definition commit_direction (this : t) : t :=
  match _nextDirection this with
  | Some d =>
      {| _nextDirection := None;
         _direction := d;
         _segments := _segments this;
         _food := _food this;
         _dead := _dead this |}
  | None => this
  end.

Definition tick (this : t) : M t :=
  let this1 := commit_direction this in
  newhead <- Direction.applyTo (_direction this1) (head this1) ;;
  let segments := newhead :: _segments this1 in
  if _food this1 >? 0 then
    ret {| _nextDirection := _nextDirection this1;
           _direction := _direction this1;
           _segments := segments;
           _food := _food this1 - 1;
           _dead := _dead this1 |}
  else
    ret {| _nextDirection := _nextDirection this1;
           _direction := _direction this1;
           _segments := removelast segments;
           _food := _food this1;
           _dead := _dead this1 |}.
End Snake.

(** ** CheeseFactory *)

Module CheeseFactory.
Record t : Type := {
  _positionContext : PositionContext.t;
  _food : Z * Z
}.

(** The array [possible] after the two nested loops. *)
Definition possible_cells (this : t) (snake : Snake.t) : list (Z * Z) :=
  let dx := AxisPositionContext.domain
              (PositionContext._x (_positionContext this)) in
  let dy := AxisPositionContext.domain
              (PositionContext._y (_positionContext this)) in
  flat_map
    (fun x =>
       flat_map
         (fun y =>
            let pos := (x, y) in
            if forallb (fun s => negb (Position.equals s (Position.APair pos)))
                 (Snake._segments snake)
            then [pos] else [])
         (Zrange (fst dy) (snd dy)))
    (Zrange (fst dx) (snd dx)).

(** [possible[choice][0]] is a [TypeError] when [possible[choice]] is
    [undefined]. *)
Definition generatePosition (this : t) (r : Q) (snake : Snake.t)
  : M Position.t :=
  let possible := possible_cells this snake in
  let choice := floor_random r (Z.of_nat (length possible)) in
  match array_get possible choice with
  | Some pos => Position.new (fst pos) (snd pos) (_positionContext this)
  | None => throw
  end.

(** [r1] and [r2] are the two draws, in the order they are made. *)
Definition createCheese (this : t) (r1 r2 : Q) (snake : Snake.t)
  : M Cheese.t :=
  position <- generatePosition this r1 snake ;;
  let food :=
    floor_random r2 (snd (_food this) - fst (_food this))
    + fst (_food this) in
  ret {| Cheese._position := position; Cheese._food := food |}.
End CheeseFactory.

(** ** AppComponent *)

(** The keys of [AppComponent._directions]. *)
Inductive DirectionName : Type := up | down | left | right.

Module AppComponent.
Import String.

Record t : Type := {
  gameOver : bool;
  _cheeseFactory : CheeseFactory.t;
  _cheese : Cheese.t;
  _snake : Snake.t;
  _positionContext : PositionContext.t
}.

Definition _directions (d : DirectionName) : Direction.t :=
  match d with
  | up => {| Direction._dx := 0; Direction._dy := -1 |}
  | down => {| Direction._dx := 0; Direction._dy := 1 |}
  | left => {| Direction._dx := -1; Direction._dy := 0 |}
  | right => {| Direction._dx := 1; Direction._dy := 0 |}
  end.

(** [initGame] on a component whose context and factory are set; [r1]
    and [r2] are the draws of its [createCheese]. *)
Definition initGame (positionContext : PositionContext.t)
  (cheeseFactory : CheeseFactory.t) (r1 r2 : Q) : M t :=
  start <- Position.new 5 5 positionContext ;;
  let snake := Snake.new start 4 (_directions right) in
  cheese <- CheeseFactory.createCheese cheeseFactory r1 r2 snake ;;
  ret {| gameOver := false;
         _cheeseFactory := cheeseFactory;
         _cheese := cheese;
         _snake := snake;
         _positionContext := positionContext |}.

(** The context and the factory [ngAfterViewInit] sets up. *)
Definition positionContext0 : PositionContext.t :=
  PositionContext.new
    {| Interval2D.x := (0, 20); Interval2D.y := (0, 20) |}
    {| Interval2D.x := (0, 640); Interval2D.y := (0, 480) |}.

Definition cheeseFactory0 : CheeseFactory.t :=
  {| CheeseFactory._positionContext := positionContext0;
     CheeseFactory._food := (1, 15) |}.

Definition ngAfterViewInit (r1 r2 : Q) : M t :=
  initGame positionContext0 cheeseFactory0 r1 r2.


Definition getNewDirection (key : String.string) : option Direction.t :=
  if String.eqb key "ArrowLeft"%string then Some (_directions left)
  else if String.eqb key "ArrowRight"%string then Some (_directions right)
  else if String.eqb key "ArrowUp"%string then Some (_directions up)
  else if String.eqb key "ArrowDown"%string then Some (_directions down)
  else None.

Definition with_snake (this : t) (snake : Snake.t) : t :=
  {| gameOver := gameOver this;
     _cheeseFactory := _cheeseFactory this;
     _cheese := _cheese this;
     _snake := snake;
     _positionContext := _positionContext this |}.

Definition handleUserInput (this : t) (key : String.string) : t :=
  match getNewDirection key with
  | Some newDirection =>
      if Direction.isTurn newDirection (Snake._direction (_snake this))
      then with_snake this (Snake.set_direction (_snake this) newDirection)
      else this
  | None => this
  end.

(** The condition of the first [if] of [tick]:
    [segments.some(_ => _ !== head && _.equals(head))]. *)
Definition self_collision (snake : Snake.t) : bool :=
  existsb
    (fun s =>
       Position.not_same s (Snake.head snake)
       && Position.equals s (Position.of_option (Snake.head snake)))
    (Snake._segments snake).

(** [kill] notifies [_died$], whose subscriber sets [gameOver] (and
    unsubscribes the timers and the key listener, see [deliver]). *)
Definition tick (this : t) (r1 r2 : Q) : M t :=
  snake1 <- Snake.tick (_snake this) ;;
  let collided := self_collision snake1 in
  let snake2 := if collided then Snake.kill snake1 else snake1 in
  let over := if collided then true else gameOver this in
  if Position.equals (Cheese._position (_cheese this))
       (Position.of_option (Snake.head snake2))
  then
    let snake3 := Snake.eat snake2 (_cheese this) in
    cheese <- CheeseFactory.createCheese (_cheeseFactory this) r1 r2 snake3 ;;
    ret {| gameOver := over;
           _cheeseFactory := _cheeseFactory this;
           _cheese := cheese;
           _snake := snake3;
           _positionContext := _positionContext this |}
  else
    ret {| gameOver := over;
           _cheeseFactory := _cheeseFactory this;
           _cheese := _cheese this;
           _snake := snake2;
           _positionContext := _positionContext this |}.
End AppComponent.

(** ** The driver

    The events the subscriptions of [initGame] deliver to the component:
    key presses and the ticks of the simulation timer, each tick with the
    two draws a [createCheese] in it would make.  Once the snake has died
    the subscriber of [died$] has unsubscribed both streams, and nothing is
    delivered any more. *)

Inductive Event : Type :=
| KeyDown (key : String.string)
| TimerTick (r1 r2 : Q).

Definition deliver (e : Event) (app : AppComponent.t) : M AppComponent.t :=
  if AppComponent.gameOver app then ret app
  else
    match e with
    | KeyDown key => ret (AppComponent.handleUserInput app key)
    | TimerTick r1 r2 => AppComponent.tick app r1 r2
    end.

(** The states of the component after each event of a run. *)
Fixpoint run (events : list Event) (app : AppComponent.t)
  : M (list AppComponent.t) :=
  match events with
  | [] => ret []
  | e :: events' =>
      app' <- deliver e app ;;
      rest <- run events' app' ;;
      ret (app' :: rest)
  end.

(** ** Sequences of calls on a snake *)

Inductive SnakeCall : Type :=
| CallTick
| CallEat (cheese : Cheese.t)
| CallKill
| CallSetDirection (d : Direction.t).

Definition call (c : SnakeCall) (snake : Snake.t) : M Snake.t :=
  match c with
  | CallTick => Snake.tick snake
  | CallEat cheese => ret (Snake.eat snake cheese)
  | CallKill => ret (Snake.kill snake)
  | CallSetDirection d => ret (Snake.set_direction snake d)
  end.

Fixpoint calls (cs : list SnakeCall) (snake : Snake.t) : M Snake.t :=
  match cs with
  | [] => ret snake
  | c :: cs' => snake' <- call c snake ;; calls cs' snake'
  end.

(** [n] calls of [tick] in a row. *)
Fixpoint ticks (n : nat) (snake : Snake.t) : M Snake.t :=
  match n with
  | O => ret snake
  | S n' => snake' <- Snake.tick snake ;; ticks n' snake'
  end.

(** ** Vocabulary of the statements *)

Definition opposite (d : DirectionName) : DirectionName :=
  match d with
  | up => down
  | down => up
  | left => right
  | right => left
  end.

Definition DirectionName_eqb (a b : DirectionName) : bool :=
  match a, b with
  | up, up | down, down | left, left | right, right => true
  | _, _ => false
  end.

(** The other axis. *)
Definition perpendicular (a b : DirectionName) : bool :=
  match a, b with
  | (up | down), (left | right) => true
  | (left | right), (up | down) => true
  | _, _ => false
  end.

(** Coordinates of a position. *)
Definition coords (p : Position.t) : Z * Z :=
  (Position._x p, Position._y p).

(** Some segment other than the head (a later element of the list) is at
    the head's coordinates. *)
Definition head_hits_body (snake : Snake.t) : Prop :=
  exists h i s,
    Snake.head snake = Some h /\ (0 < i)%nat /\
    nth_error (Snake._segments snake) i = Some s /\
    coords s = coords h.

(** Number of cells of the grid, and of cells the snake lies on. *)
Definition total_cells (c : PositionContext.t) : nat :=
  let dx := AxisPositionContext.domain (PositionContext._x c) in
  let dy := AxisPositionContext.domain (PositionContext._y c) in
  (Z.to_nat (snd dx - fst dx) * Z.to_nat (snd dy - fst dy))%nat.

Definition coords_eq_dec (a b : Z * Z) : {a = b} + {a <> b}.
Proof. decide equality; apply Z.eq_dec. Defined.

Definition occupied_cells (snake : Snake.t) : list (Z * Z) :=
  nodup coords_eq_dec (map coords (Snake._segments snake)).

(** What [tick] needs in order to return: a head, in a valid context. *)
Definition can_move (snake : Snake.t) : Prop :=
  exists h, Snake.head snake = Some h /\ valid_context (Position._context h).

(** The committed direction after the first statement of [tick]. *)
Definition next_heading (snake : Snake.t) : Direction.t :=
  match Snake._nextDirection snake with
  | Some d => d
  | None => Snake._direction snake
  end.

(** The start position and the snake of [initGame], as the first
    allocation of a session. *)
Definition start0 : Position.t :=
  {| Position.oid := 0; Position._x := 5; Position._y := 5;
     Position._context := AppComponent.positionContext0 |}.

Definition snake0 : Snake.t :=
  Snake.new start0 4 (AppComponent._directions right).

(** Every cell of the grid, and whether the snake leaves a cell free. *)
Definition grid_cells (c : PositionContext.t) : list (Z * Z) :=
  let dx := AxisPositionContext.domain (PositionContext._x c) in
  let dy := AxisPositionContext.domain (PositionContext._y c) in
  list_prod (Zrange (fst dx) (snd dx)) (Zrange (fst dy) (snd dy)).

Definition is_free (snake : Snake.t) (pos : Z * Z) : bool :=
  forallb (fun s => negb (Position.equals s (Position.APair pos)))
    (Snake._segments snake).

(** A snake that fills the 20 by 20 board: column after column, each
    second column upwards, so that consecutive segments are neighbours. *)
Definition full_board_cells : list (Z * Z) :=
  flat_map
    (fun x =>
       map (fun y => (x, y))
         (if Z.even x then Zrange 0 20 else rev (Zrange 0 20)))
    (Zrange 0 20).

Definition full_board_segments : list Position.t :=
  map (fun ip =>
         {| Position.oid := fst ip;
            Position._x := fst (snd ip);
            Position._y := snd (snd ip);
            Position._context := AppComponent.positionContext0 |})
    (combine (seq 0 400) full_board_cells).

Definition full_board_snake : Snake.t :=
  {| Snake._nextDirection := None;
     Snake._direction := AppComponent._directions up;
     Snake._segments := full_board_segments;
     Snake._food := 0;
     Snake._dead := false |}.

(** The segments are different objects, all allocated before [n]. *)
Definition segments_distinct (snake : Snake.t) (n : nat) : Prop :=
  NoDup (map Position.oid (Snake._segments snake)) /\
  Forall (fun p => (Position.oid p < n)%nat) (Snake._segments snake).

(** What holds of the component between two events, [n] being the
    allocation counter: the snake can move, its segments are different
    objects, it is dead exactly if its head lies on its body, and
    [gameOver] is its dead flag. *)
Definition app_ok (app : AppComponent.t) (n : nat) : Prop :=
  can_move (AppComponent._snake app) /\
  segments_distinct (AppComponent._snake app) n /\
  (Snake._dead (AppComponent._snake app) = true <->
   head_hits_body (AppComponent._snake app)) /\
  AppComponent.gameOver app = Snake._dead (AppComponent._snake app).

Definition is_dead (app : AppComponent.t) : bool :=
  Snake._dead (AppComponent._snake app).

(** The component after [ngAfterViewInit] with the draws 1/2 and 1/3: the
    first cheese is at (10,0) with food 5. *)
Definition game0 : AppComponent.t :=
  {| AppComponent.gameOver := false;
     AppComponent._cheeseFactory := AppComponent.cheeseFactory0;
     AppComponent._cheese :=
       {| Cheese._position :=
            {| Position.oid := 1; Position._x := 10; Position._y := 0;
               Position._context := AppComponent.positionContext0 |};
          Cheese._food := 5 |};
     AppComponent._snake := snake0;
     AppComponent._positionContext := AppComponent.positionContext0 |}.

Module Keys.
Import String.
Definition ArrowDown : string := "ArrowDown".
Definition ArrowLeft : string := "ArrowLeft".
Definition ArrowUp : string := "ArrowUp".
End Keys.

(** Four ticks with three turns in between: right, down, left, up, back
    onto the start cell, which is still part of the growing snake. *)
Definition tight_loop : list Event :=
  [TimerTick 0 0; KeyDown Keys.ArrowDown; TimerTick 0 0;
   KeyDown Keys.ArrowLeft; TimerTick 0 0; KeyDown Keys.ArrowUp;
   TimerTick 0 0].

(** ** Vocabulary of the further properties *)

(** Where the wrap-around puts [val] on an axis: the point of the domain
    that differs from it by a whole number of widths. *)
Definition torus (a : AxisPositionContext.t) (val : Z) : Z :=
  fst (AxisPositionContext.domain a)
  + (val - fst (AxisPositionContext.domain a))
    mod AxisPositionContext.w_domain (AxisPositionContext.widths a).

Definition axis_nonempty (a : AxisPositionContext.t) : bool :=
  fst (AxisPositionContext.domain a) <? snd (AxisPositionContext.domain a).

(** The position lies in the domain of its own context. *)
Definition in_domain (p : Position.t) : Prop :=
  let dx := AxisPositionContext.domain
              (PositionContext._x (Position._context p)) in
  let dy := AxisPositionContext.domain
              (PositionContext._y (Position._context p)) in
  fst dx <= Position._x p < snd dx /\ fst dy <= Position._y p < snd dy.

(** The food of the cheeses a sequence of calls eats. *)
Fixpoint eaten (cs : list SnakeCall) : Z :=
  match cs with
  | [] => 0
  | CallEat cheese :: cs' => Cheese._food cheese + eaten cs'
  | _ :: cs' => eaten cs'
  end.

Definition nonnegative_food (c : SnakeCall) : Prop :=
  match c with
  | CallEat cheese => 0 <= Cheese._food cheese
  | _ => True
  end.


(** The committed direction is one of the four, and a queued one is a
    quarter turn away from it. *)
Definition heading_ok (app : AppComponent.t) : Prop :=
  exists a,
    Snake._direction (AppComponent._snake app) = AppComponent._directions a /\
    match Snake._nextDirection (AppComponent._snake app) with
    | Some d =>
        exists b, d = AppComponent._directions b /\ perpendicular b a = true
    | None => True
    end.

Module MoreKeys.
Import String.
Definition ArrowRight : string := "ArrowRight".
Definition Space : string := " ".
End MoreKeys.

(** Up along the column of the start cell to the top row, then right
    along the top row onto the first cheese of [game0] at (10,0). *)
Definition eating_run : list Event :=
  [KeyDown Keys.ArrowUp; TimerTick (1 # 4) (3 # 4); TimerTick 0 0;
   TimerTick 0 0; TimerTick 0 0; TimerTick 0 0;
   KeyDown MoreKeys.ArrowRight; TimerTick 0 0; TimerTick 0 0; TimerTick 0 0;
   TimerTick 0 0; TimerTick (1 # 4) (3 # 4)].

(** The key press changes the queue: the key is an arrow and its
    direction is a turn from the committed one (the condition of
    [handleUserInput]). *)
Definition accepted (app : AppComponent.t) (key : String.string) : bool :=
  match AppComponent.getNewDirection key with
  | Some d => Direction.isTurn d (Snake._direction (AppComponent._snake app))
  | None => false
  end.

(** While the snake is alive no two of its segments are on one cell. *)
Definition no_overlap (app : AppComponent.t) : Prop :=
  is_dead app = false ->
  NoDup (map coords (Snake._segments (AppComponent._snake app))).

(** * Properties *)

(** ** The wrap-around loops *)

Section Loops.
Import AxisPositionContext PositionContext.

Variable c : AxisPositionContext.t.

#[local] Abbreviation lo := (fst (domain c)).
#[local] Abbreviation hi := (snd (domain c)).
#[local] Abbreviation w := (w_domain (widths c)).

Lemma while_below_idle fuel val :
  lo <= val -> while_below fuel c val = Some val.
Proof.
  intros H. destruct fuel; simpl;
    destruct (Z.ltb_spec val lo); trivial; lia.
Qed.

Lemma while_above_idle fuel val :
  val < hi -> while_above fuel c val = Some val.
Proof.
  intros H. destruct fuel; simpl;
    destruct (Z.geb_spec val hi); trivial; lia.
Qed.

Lemma while_below_mono n : forall m val v,
  (n <= m)%nat -> while_below n c val = Some v ->
  while_below m c val = Some v.
Proof.
  induction n as [|n IH]; intros m val v Hnm; simpl;
    destruct (Z.ltb_spec val (fst (domain c))) as [Hlt|Hge];
    try discriminate; intros E.
  - rewrite while_below_idle; [exact E | exact Hge].
  - destruct m as [|m]; [lia|]. simpl.
    destruct (Z.ltb_spec val (fst (domain c))); [|lia].
    apply IH; [lia | exact E].
  - rewrite while_below_idle; [exact E | exact Hge].
Qed.

Lemma while_above_mono n : forall m val v,
  (n <= m)%nat -> while_above n c val = Some v ->
  while_above m c val = Some v.
Proof.
  induction n as [|n IH]; intros m val v Hnm; simpl;
    destruct (Z.geb_spec val (snd (domain c))) as [Hge|Hlt];
    try discriminate; intros E.
  - rewrite while_above_idle; [exact E | exact Hlt].
  - destruct m as [|m]; [lia|]. simpl.
    destruct (Z.geb_spec val (snd (domain c))); [|lia].
    apply IH; [lia | exact E].
  - rewrite while_above_idle; [exact E | exact Hlt].
Qed.

(** With a positive step the first loop ends, at the first value of
    [val, val + w, ...] that is not below the domain. *)
Lemma while_below_ends fuel : forall val,
  0 < w -> (below_bound c val <= fuel)%nat ->
  exists v, while_below fuel c val = Some v /\ lo <= v /\
            (val < lo -> v < lo + w) /\ (lo <= val -> v = val).
Proof.
  unfold below_bound.
  induction fuel as [|fuel IH]; intros val Hw Hf; simpl;
    destruct (Z.ltb_spec val lo) as [Hlt|Hge];
    try (exists val; repeat split; trivial; lia); try lia.
  destruct (IH (val + w) Hw) as (v & E & H1 & H2 & H3); [lia|].
  exists v. repeat split; trivial; lia.
Qed.

(** With a non-empty domain the second loop ends, at the first value of
    [val, val - (hi - lo), ...] that is below the upper bound. *)
Lemma while_above_ends fuel : forall val,
  lo < hi -> (above_bound c val <= fuel)%nat ->
  exists v, while_above fuel c val = Some v /\ v < hi /\
            (lo <= val -> lo <= v) /\ (val < hi -> v = val).
Proof.
  unfold above_bound.
  induction fuel as [|fuel IH]; intros val Hd Hf; simpl;
    destruct (Z.geb_spec val hi) as [Hge|Hlt];
    try (exists val; repeat split; trivial; lia); try lia.
  destruct (IH (lo + (val - hi)) Hd) as (v & E & H1 & H2 & H3); [lia|].
  exists v. repeat split; trivial; lia.
Qed.

(** A first loop that cannot make progress never ends. *)
Lemma while_below_stuck fuel : forall val,
  w <= 0 -> val < lo -> while_below fuel c val = None.
Proof.
  induction fuel as [|fuel IH]; intros val Hw Hlt; simpl;
    destruct (Z.ltb_spec val lo); try lia; trivial.
  apply IH; lia.
Qed.

Lemma while_above_stuck fuel : forall val,
  hi <= lo -> hi <= val -> while_above fuel c val = None.
Proof.
  induction fuel as [|fuel IH]; intros val Hd Hge; simpl;
    destruct (Z.geb_spec val hi); try lia; trivial.
  apply IH; lia.
Qed.

(** If some number of iterations ends a loop, the bound the model runs
    it with does. *)
Lemma while_below_enough fuel val v :
  while_below fuel c val = Some v ->
  while_below (below_bound c val) c val = Some v.
Proof.
  intros E.
  destruct (Z.lt_ge_cases val lo) as [Hlt|Hge].
  - destruct (Z.lt_ge_cases 0 w) as [Hw|Hw].
    + destruct (while_below_ends (below_bound c val) val Hw (le_n _))
        as (v' & E' & _).
      destruct (Nat.le_ge_cases fuel (below_bound c val)) as [L|L].
      * apply (while_below_mono _ _ _ _ L E).
      * pose proof (while_below_mono _ _ _ _ L E') as E2.
        rewrite E in E2. rewrite E'. exact (eq_sym E2).
    + rewrite while_below_stuck in E by assumption. discriminate.
  - rewrite while_below_idle in E by assumption.
    rewrite while_below_idle by assumption. exact E.
Qed.

Lemma while_above_enough fuel val v :
  while_above fuel c val = Some v ->
  while_above (above_bound c val) c val = Some v.
Proof.
  intros E.
  destruct (Z.lt_ge_cases val hi) as [Hlt|Hge].
  - rewrite while_above_idle in E by assumption.
    rewrite while_above_idle by assumption. exact E.
  - destruct (Z.lt_ge_cases lo hi) as [Hd|Hd].
    + destruct (while_above_ends (above_bound c val) val Hd (le_n _))
        as (v' & E' & _).
      destruct (Nat.le_ge_cases fuel (above_bound c val)) as [L|L].
      * apply (while_above_mono _ _ _ _ L E).
      * pose proof (while_above_mono _ _ _ _ L E') as E2.
        rewrite E in E2. rewrite E'. exact (eq_sym E2).
    + rewrite while_above_stuck in E by assumption. discriminate.
Qed.

(** [applyDomainVector] returns [v] exactly when the two loops, given
    some number of iterations, end with [v]. *)
Lemma applyDomainVector_adequate val v :
  applyDomainVector val c = Returns v <->
  exists fuel, applyDomainVector_fuel fuel val c = Some v.
Proof.
  unfold applyDomainVector, applyDomainVector_fuel. split.
  - destruct (while_below (below_bound c val) c val) as [v1|] eqn:E1;
      [|discriminate].
    destruct (while_above (above_bound c v1) c v1) as [v2|] eqn:E2;
      [|discriminate].
    intros [= <-].
    exists (Nat.max (below_bound c val) (above_bound c v1)).
    rewrite (while_below_mono _ _ _ _ (Nat.le_max_l _ _) E1).
    apply (while_above_mono _ _ _ _ (Nat.le_max_r _ _) E2).
  - intros [fuel E].
    destruct (while_below fuel c val) as [v1|] eqn:E1; [|discriminate].
    rewrite (while_below_enough _ _ _ E1).
    rewrite (while_above_enough _ _ _ E). reflexivity.
Qed.

(** On a valid axis the normalisation returns, inside the domain, and
    leaves a value of the domain as it is. *)
Lemma applyDomainVector_valid val :
  valid_axis c ->
  exists v, applyDomainVector val c = Returns v /\
            lo <= v < hi /\ (lo <= val < hi -> v = val).
Proof.
  intros [Hw Hpos]. cbv zeta in Hw, Hpos.
  unfold applyDomainVector.
  destruct (while_below_ends (below_bound c val) val Hpos (le_n _))
    as (v1 & E1 & A1 & A2 & A3).
  rewrite E1.
  destruct (while_above_ends (above_bound c v1) v1 ltac:(lia) (le_n _))
    as (v2 & E2 & B1 & B2 & B3).
  rewrite E2. exists v2. split; [reflexivity|]. split; [lia|].
  intros Hin. rewrite B3, A3; lia.
Qed.
End Loops.

(** C2. On every axis with a positive domain width, [applyDomainVector]
    returns for every integer; the value it returns lies in
    [[domain.min, domain.max)]; a value already in that interval is returned
    unchanged; and normalising the result again gives the same result. *)
Theorem applyDomainVector_wraps (c : AxisPositionContext.t) (val : Z) :
  valid_axis c ->
  exists v,
    PositionContext.applyDomainVector val c = Returns v /\
    fst (AxisPositionContext.domain c) <= v < snd (AxisPositionContext.domain c) /\
    (fst (AxisPositionContext.domain c) <= val < snd (AxisPositionContext.domain c) ->
     v = val) /\
    PositionContext.applyDomainVector v c = Returns v.
Proof.
  intros Hc.
  destruct (applyDomainVector_valid c val Hc) as (v & E & Hin & Hid).
  exists v. repeat split; try tauto.
  destruct (applyDomainVector_valid c v Hc) as (v' & E' & _ & Hid').
  rewrite E'. f_equal. apply Hid'. exact Hin.
Qed.

Lemma applyDomainVector_wraps_witness :
  exists v,
    PositionContext.applyDomainVector (-43)
      (PositionContext._x AppComponent.positionContext0) = Returns v /\
    0 <= v < 20 /\
    (0 <= -43 < 20 -> v = -43) /\
    PositionContext.applyDomainVector v
      (PositionContext._x AppComponent.positionContext0) = Returns v.
Proof.
  apply (applyDomainVector_wraps
           (PositionContext._x AppComponent.positionContext0) (-43)).
  split; reflexivity.
Defined.

(** C6. Among the four directions, [d.isTurn(previous)] is true exactly
    when [d] is on the other axis than [previous]: false for the same
    direction, false for the opposite one, true for the two perpendicular
    ones; with [previous = right], [left] and [right] are no turns, [up]
    and [down] are. *)
Theorem isTurn_perpendicular :
  (forall d p,
     Direction.isTurn (AppComponent._directions d) (AppComponent._directions p)
     = perpendicular d p) /\
  (forall p,
     Direction.isTurn (AppComponent._directions p) (AppComponent._directions p)
     = false) /\
  (forall p,
     Direction.isTurn (AppComponent._directions (opposite p))
       (AppComponent._directions p) = false) /\
  (forall d p,
     perpendicular d p = negb (DirectionName_eqb d p)
                         && negb (DirectionName_eqb d (opposite p))) /\
  Direction.isTurn (AppComponent._directions left)
    (AppComponent._directions right) = false /\
  Direction.isTurn (AppComponent._directions right)
    (AppComponent._directions right) = false /\
  Direction.isTurn (AppComponent._directions up)
    (AppComponent._directions right) = true /\
  Direction.isTurn (AppComponent._directions down)
    (AppComponent._directions right) = true.
Proof.
  repeat split; try (intros d p; destruct d, p; reflexivity);
    intros p; destruct p; reflexivity.
Qed.

(** ** Positions *)

Lemma applyDomain_valid (c : PositionContext.t) (x y : Z) :
  valid_context c ->
  exists x' y',
    PositionContext.applyDomain x y c = Returns (x', y') /\
    PositionContext.applyDomainVector x (PositionContext._x c) = Returns x' /\
    PositionContext.applyDomainVector y (PositionContext._y c) = Returns y'.
Proof.
  intros [Hx Hy]. unfold PositionContext.applyDomain.
  destruct (applyDomainVector_valid _ x Hx) as (x' & Ex & _).
  destruct (applyDomainVector_valid _ y Hy) as (y' & Ey & _).
  exists x', y'. rewrite Ex, Ey. auto.
Qed.

(** In a valid context the constructor returns a new object, with the next
    identity and the normalised coordinates. *)
Lemma Position_new_returns (c : PositionContext.t) (x y : Z) (n : nat) :
  valid_context c ->
  exists x' y',
    PositionContext.applyDomain x y c = Returns (x', y') /\
    Position.new x y c n =
      Returns ({| Position.oid := n; Position._x := x'; Position._y := y';
                  Position._context := c |}, S n).
Proof.
  intros Hc. destruct (applyDomain_valid c x y Hc) as (x' & y' & E & _).
  exists x', y'. split; [exact E|].
  unfold Position.new, bind, lift, fresh, ret. rewrite E. reflexivity.
Qed.

Lemma applyTo_returns (d : Direction.t) (h : Position.t) (n : nat) :
  valid_context (Position._context h) ->
  exists p,
    Direction.applyTo d (Some h) n = Returns (p, S n) /\
    Position.oid p = n /\
    Position._context p = Position._context h.
Proof.
  intros Hc. simpl. unfold Position.createModified.
  destruct (Position_new_returns _ (Position._x h + Direction._dx d)
              (Position._y h + Direction._dy d) n Hc) as (x' & y' & _ & E).
  rewrite E. eexists. repeat split.
Qed.

(** ** One tick *)

Lemma head_commit_direction (s : Snake.t) :
  Snake.head (Snake.commit_direction s) = Snake.head s.
Proof. unfold Snake.commit_direction. destruct (Snake._nextDirection s); reflexivity. Qed.

Lemma direction_commit_direction (s : Snake.t) :
  Snake._direction (Snake.commit_direction s) = next_heading s.
Proof.
  unfold Snake.commit_direction, next_heading.
  destruct (Snake._nextDirection s); reflexivity.
Qed.

Lemma next_commit_direction (s : Snake.t) :
  Snake._nextDirection (Snake.commit_direction s) = None.
Proof.
  unfold Snake.commit_direction.
  destruct (Snake._nextDirection s) eqn:E; [reflexivity | exact E].
Qed.

Lemma rest_commit_direction (s : Snake.t) :
  Snake._segments (Snake.commit_direction s) = Snake._segments s /\
  Snake._food (Snake.commit_direction s) = Snake._food s /\
  Snake._dead (Snake.commit_direction s) = Snake._dead s.
Proof.
  unfold Snake.commit_direction.
  destruct (Snake._nextDirection s); repeat split.
Qed.

(** What [tick] does to a snake that can move, alive or not. *)
Lemma tick_returns (s : Snake.t) (h : Position.t) (n : nat) :
  Snake.head s = Some h ->
  valid_context (Position._context h) ->
  exists newhead,
    Direction.applyTo (next_heading s) (Some h) n = Returns (newhead, S n) /\
    Position.oid newhead = n /\
    Position._context newhead = Position._context h /\
    Snake.tick s n =
      Returns ({| Snake._nextDirection := None;
                  Snake._direction := next_heading s;
                  Snake._segments :=
                    if Snake._food s >? 0 then newhead :: Snake._segments s
                    else removelast (newhead :: Snake._segments s);
                  Snake._food :=
                    if Snake._food s >? 0 then Snake._food s - 1
                    else Snake._food s;
                  Snake._dead := Snake._dead s |}, S n).
Proof.
  intros Hh Hc.
  destruct (applyTo_returns (next_heading s) h n Hc) as (p & E & Ho & Hctx).
  exists p. repeat split; trivial.
  unfold Snake.tick, bind.
  rewrite head_commit_direction, direction_commit_direction, Hh, E.
  rewrite next_commit_direction.
  destruct (rest_commit_direction s) as (-> & -> & ->).
  destruct (Snake._food s >? 0); reflexivity.
Qed.

Lemma removelast_cons_length {A} (a : A) (l : list A) :
  List.length (removelast (a :: l)) = List.length l.
Proof.
  revert a. induction l as [|b l IH]; intros a; [reflexivity|].
  change (List.length (removelast (a :: b :: l)))
    with (S (List.length (removelast (b :: l)))).
  rewrite IH. reflexivity.
Qed.

Lemma removelast_cons_head {A} (a b : A) (l : list A) :
  removelast (a :: b :: l) = a :: removelast (b :: l).
Proof. reflexivity. Qed.

(** C1. On an alive snake (one that has a head, in a grid with positive
    widths) [tick] returns, and the snake it leaves is: the queued
    direction, if any, committed and the queue empty; the new head, which
    is the committed direction applied to the old head, in front of the
    segments; then, with pending food, the food one less and every segment
    kept (one segment more), and without, the last segment dropped (as many
    segments as before). *)
Theorem tick_steps (s : Snake.t) (h : Position.t) (n : nat) :
  Snake._dead s = false ->
  Snake.head s = Some h ->
  valid_context (Position._context h) ->
  exists newhead s',
    Direction.applyTo (next_heading s) (Some h) n = Returns (newhead, S n) /\
    Snake.tick s n = Returns (s', S n) /\
    Snake._direction s' = next_heading s /\
    Snake._nextDirection s' = None /\
    Snake._dead s' = false /\
    Snake.head s' = Some newhead /\
    (0 < Snake._food s ->
     Snake._food s' = Snake._food s - 1 /\
     Snake._segments s' = newhead :: Snake._segments s /\
     List.length (Snake._segments s') = S (List.length (Snake._segments s))) /\
    (Snake._food s <= 0 ->
     Snake._food s' = Snake._food s /\
     Snake._segments s' = removelast (newhead :: Snake._segments s) /\
     List.length (Snake._segments s') = List.length (Snake._segments s)).
Proof.
  intros Hd Hh Hc.
  destruct (tick_returns s h n Hh Hc) as (p & E & _ & _ & T).
  exists p. eexists. split; [exact E|]. split; [exact T|].
  cbn [Snake._direction Snake._nextDirection Snake._dead Snake._food
       Snake._segments Snake.head].
  repeat split; trivial.
  - destruct (Snake._food s >? 0); [reflexivity|].
    unfold Snake.head in Hh. destruct (Snake._segments s); [discriminate|].
    reflexivity.
  - destruct (Z.gtb_spec (Snake._food s) 0); [reflexivity | lia].
  - destruct (Z.gtb_spec (Snake._food s) 0); [reflexivity | lia].
  - destruct (Z.gtb_spec (Snake._food s) 0); [reflexivity | lia].
  - destruct (Z.gtb_spec (Snake._food s) 0); [lia | reflexivity].
  - destruct (Z.gtb_spec (Snake._food s) 0); [lia | reflexivity].
  - destruct (Z.gtb_spec (Snake._food s) 0); [lia |].
    apply removelast_cons_length.
Qed.

Lemma positionContext0_valid : valid_context AppComponent.positionContext0.
Proof. repeat split. Qed.

Lemma snake0_can_move : can_move snake0.
Proof. exists start0. split; [reflexivity | exact positionContext0_valid]. Qed.

Lemma tick_steps_witness :
  exists newhead s',
    Direction.applyTo (next_heading snake0) (Some start0) 1%nat
      = Returns (newhead, 2%nat) /\
    Snake.tick snake0 1%nat = Returns (s', 2%nat) /\
    Snake._direction s' = next_heading snake0 /\
    Snake._nextDirection s' = None /\
    Snake._dead s' = false /\
    Snake.head s' = Some newhead /\
    (0 < Snake._food snake0 ->
     Snake._food s' = Snake._food snake0 - 1 /\
     Snake._segments s' = newhead :: Snake._segments snake0 /\
     List.length (Snake._segments s')
       = S (List.length (Snake._segments snake0))) /\
    (Snake._food snake0 <= 0 ->
     Snake._food s' = Snake._food snake0 /\
     Snake._segments s' = removelast (newhead :: Snake._segments snake0) /\
     List.length (Snake._segments s')
       = List.length (Snake._segments snake0)).
Proof.
  apply (tick_steps snake0 start0 1%nat).
  - reflexivity.
  - reflexivity.
  - repeat split.
Defined.

(** ** Runs of ticks *)

(** One tick of a snake that can move: it returns a snake that can move,
    one segment longer if there was pending food. *)
Lemma tick_summary (s : Snake.t) (n : nat) :
  can_move s ->
  exists s',
    Snake.tick s n = Returns (s', S n) /\
    can_move s' /\
    Snake._dead s' = Snake._dead s /\
    (0 < Snake._food s ->
     Snake._food s' = Snake._food s - 1 /\
     List.length (Snake._segments s') = S (List.length (Snake._segments s))) /\
    (Snake._food s <= 0 ->
     Snake._food s' = Snake._food s /\
     List.length (Snake._segments s') = List.length (Snake._segments s)).
Proof.
  intros (h & Hh & Hc).
  destruct (tick_returns s h n Hh Hc) as (p & _ & _ & Hctx & T).
  eexists. split; [exact T|].
  cbn [Snake._dead Snake._food Snake._segments].
  assert (Hseg : exists r, Snake._segments s = h :: r).
  { unfold Snake.head in Hh. destruct (Snake._segments s) as [|a r];
      [discriminate|]. injection Hh as ->. eauto. }
  destruct Hseg as (r & Hseg).
  split; [|split; [reflexivity|]].
  - exists p. split; [|rewrite Hctx; exact Hc].
    unfold Snake.head. cbn [Snake._segments]. rewrite Hseg.
    destruct (Snake._food s >? 0); reflexivity.
  - destruct (Z.gtb_spec (Snake._food s) 0); split; intros; try lia;
      split; trivial.
    apply removelast_cons_length.
Qed.

(** [k] ticks in a row use up the pending food one per tick, each adding
    a segment, and then keep the length. *)
Lemma ticks_growth (k : nat) : forall (s : Snake.t) (n : nat),
  can_move s ->
  0 <= Snake._food s ->
  exists s',
    ticks k s n = Returns (s', (n + k)%nat) /\
    can_move s' /\
    Snake._dead s' = Snake._dead s /\
    Snake._food s' = Z.max 0 (Snake._food s - Z.of_nat k) /\
    Z.of_nat (List.length (Snake._segments s'))
      = Z.of_nat (List.length (Snake._segments s))
        + Z.min (Z.of_nat k) (Snake._food s).
Proof.
  induction k as [|k IH]; intros s n Hm Hf.
  - exists s. simpl. unfold ret. rewrite Nat.add_0_r.
    repeat split; trivial; lia.
  - destruct (tick_summary s n Hm) as (s1 & T & Hm1 & Hd1 & Hpos & Hzero).
    assert (Hf1 : 0 <= Snake._food s1) by
      (destruct (Z.lt_ge_cases 0 (Snake._food s)); [apply Hpos in H | apply Hzero in H]; lia).
    destruct (IH s1 (S n) Hm1 Hf1) as (s' & R & Hm' & Hd' & Hfood & Hlen).
    exists s'. cbn [ticks]. unfold bind. rewrite T, R.
    replace (S n + k)%nat with (n + S k)%nat by lia.
    repeat split; trivial; try congruence;
      destruct (Z.lt_ge_cases 0 (Snake._food s)) as [H|H];
      [apply Hpos in H | apply Hzero in H | apply Hpos in H | apply Hzero in H];
      lia.
Qed.

Lemma ticks_unfold (k : nat) (s : Snake.t) (n : nat) :
  ticks (S k) s n =
  match Snake.tick s n with
  | Returns (s1, n1) => ticks k s1 n1
  | Throws => Throws
  | Diverges => Diverges
  end.
Proof. reflexivity. Qed.

(** [S k] ticks are [k] ticks and one more. *)
Lemma ticks_last (k : nat) : forall (s : Snake.t) (n : nat),
  ticks (S k) s n = bind (ticks k s) Snake.tick n.
Proof.
  induction k as [|k IH]; intros s n.
  - rewrite ticks_unfold. unfold bind. cbn [ticks]. unfold ret.
    destruct (Snake.tick s n) as [[s1 n1]| |]; reflexivity.
  - rewrite ticks_unfold. unfold bind at 1. rewrite (ticks_unfold k s n).
    destruct (Snake.tick s n) as [[s1 n1]| |]; trivial.
Qed.

Lemma eat_can_move (s : Snake.t) (cheese : Cheese.t) :
  can_move s -> can_move (Snake.eat s cheese).
Proof. intros H; exact H. Qed.

(** C3. After [eat(cheese)] with food value [f > 0] on an alive snake
    without pending food, the ticks that follow all return; the tick after
    [k] of them adds one segment when [k < f] and keeps the count when
    [k >= f]; so after [k] ticks the count has grown by [min k f], which is
    [f] from the [f]-th tick on. *)
Theorem eat_growth (s : Snake.t) (cheese : Cheese.t) (n k : nat) :
  Snake._dead s = false ->
  Snake._food s = 0 ->
  can_move s ->
  0 < Cheese._food cheese ->
  exists s_k s_k1,
    ticks k (Snake.eat s cheese) n = Returns (s_k, (n + k)%nat) /\
    ticks (S k) (Snake.eat s cheese) n = Returns (s_k1, S (n + k)) /\
    Snake.tick s_k (n + k)%nat = Returns (s_k1, S (n + k)) /\
    Z.of_nat (List.length (Snake._segments s_k))
      = Z.of_nat (List.length (Snake._segments s))
        + Z.min (Z.of_nat k) (Cheese._food cheese) /\
    (Z.of_nat k < Cheese._food cheese ->
     List.length (Snake._segments s_k1) = S (List.length (Snake._segments s_k))) /\
    (Cheese._food cheese <= Z.of_nat k ->
     List.length (Snake._segments s_k1) = List.length (Snake._segments s_k) /\
     Z.of_nat (List.length (Snake._segments s_k))
       = Z.of_nat (List.length (Snake._segments s)) + Cheese._food cheese).
Proof.
  intros Hd Hf Hm Hc.
  assert (Hfe : Snake._food (Snake.eat s cheese) = Cheese._food cheese)
    by (cbn; lia).
  destruct (ticks_growth k (Snake.eat s cheese) n (eat_can_move s cheese Hm))
    as (sk & R & Hmk & _ & Hfood & Hlen); [lia|].
  destruct (tick_summary sk (n + k) Hmk) as (sk1 & T & _ & _ & Hpos & Hzero).
  exists sk, sk1. rewrite Hfe in *. cbn [Snake.eat Snake._segments] in Hlen.
  split; [exact R|]. split; [rewrite ticks_last; unfold bind; rewrite R; exact T|].
  split; [exact T|]. split; [exact Hlen|]. split.
  - intros H. apply Hpos. lia.
  - intros H. split; [apply Hzero|]; lia.
Qed.

Lemma eat_growth_witness :
  let s := Snake.new start0 0 (AppComponent._directions right) in
  let cheese := {| Cheese._position := start0; Cheese._food := 2 |} in
  exists s_k s_k1,
    ticks 1 (Snake.eat s cheese) 1%nat = Returns (s_k, (1 + 1)%nat) /\
    ticks 2 (Snake.eat s cheese) 1%nat = Returns (s_k1, S (1 + 1)) /\
    Snake.tick s_k (1 + 1)%nat = Returns (s_k1, S (1 + 1)) /\
    Z.of_nat (List.length (Snake._segments s_k))
      = Z.of_nat (List.length (Snake._segments s))
        + Z.min (Z.of_nat 1) (Cheese._food cheese) /\
    (Z.of_nat 1 < Cheese._food cheese ->
     List.length (Snake._segments s_k1) = S (List.length (Snake._segments s_k))) /\
    (Cheese._food cheese <= Z.of_nat 1 ->
     List.length (Snake._segments s_k1) = List.length (Snake._segments s_k) /\
     Z.of_nat (List.length (Snake._segments s_k))
       = Z.of_nat (List.length (Snake._segments s)) + Cheese._food cheese).
Proof.
  intros s cheese.
  apply (eat_growth s cheese 1%nat 1%nat).
  - reflexivity.
  - reflexivity.
  - exists start0. split; [reflexivity | repeat split].
  - reflexivity.
Defined.

(** ** Ticking a dead snake *)

(** C7, as the code has it. [Snake.tick] does not look at the dead flag:
    on a killed snake it returns (it does not throw) and keeps the flag
    set, and it moves the snake exactly as it moves the snake before the
    kill: queued direction committed, new head in front, food used or tail
    dropped. *)
Theorem tick_after_kill (s : Snake.t) (h : Position.t) (n : nat) :
  Snake.head s = Some h ->
  valid_context (Position._context h) ->
  exists s',
    Snake.tick s n = Returns (s', S n) /\
    Snake.tick (Snake.kill s) n = Returns (Snake.kill s', S n) /\
    Snake._dead (Snake.kill s') = true /\
    Snake._direction (Snake.kill s') = next_heading s /\
    Snake._nextDirection (Snake.kill s') = None /\
    (0 < Snake._food s ->
     Snake._food (Snake.kill s') = Snake._food s - 1 /\
     List.length (Snake._segments (Snake.kill s'))
       = S (List.length (Snake._segments s))) /\
    (Snake._food s <= 0 ->
     Snake._food (Snake.kill s') = Snake._food s /\
     List.length (Snake._segments (Snake.kill s'))
       = List.length (Snake._segments s)).
Proof.
  intros Hh Hc.
  destruct (tick_returns s h n Hh Hc) as (p & E & _ & _ & T).
  destruct (tick_returns (Snake.kill s) h n Hh Hc) as (p' & E' & _ & _ & T').
  change (next_heading (Snake.kill s)) with (next_heading s) in E', T'.
  rewrite E in E'. injection E' as <-.
  eexists. split; [exact T|]. split; [exact T'|].
  cbn [Snake.kill Snake._dead Snake._direction Snake._nextDirection
       Snake._food Snake._segments].
  repeat split; destruct (Z.gtb_spec (Snake._food s) 0); try lia; trivial.
  apply removelast_cons_length.
Qed.

Lemma tick_after_kill_witness :
  exists s',
    Snake.tick snake0 1%nat = Returns (s', 2%nat) /\
    Snake.tick (Snake.kill snake0) 1%nat = Returns (Snake.kill s', 2%nat) /\
    Snake._dead (Snake.kill s') = true /\
    Snake._direction (Snake.kill s') = next_heading snake0 /\
    Snake._nextDirection (Snake.kill s') = None /\
    (0 < Snake._food snake0 ->
     Snake._food (Snake.kill s') = Snake._food snake0 - 1 /\
     List.length (Snake._segments (Snake.kill s'))
       = S (List.length (Snake._segments snake0))) /\
    (Snake._food snake0 <= 0 ->
     Snake._food (Snake.kill s') = Snake._food snake0 /\
     List.length (Snake._segments (Snake.kill s'))
       = List.length (Snake._segments snake0)).
Proof.
  apply (tick_after_kill snake0 start0 1%nat).
  - reflexivity.
  - repeat split.
Defined.

(** C7 as stated fails: one tick of the killed snake of a new game leaves
    a snake with a new head at (6,5), two segments instead of one and
    pending food 3 instead of 4. *)
Lemma tick_after_kill_not_noop :
  Snake._dead (Snake.kill snake0) = true /\
  exists s',
    Snake.tick (Snake.kill snake0) 1%nat = Returns (s', 2%nat) /\
    s' <> Snake.kill snake0 /\
    option_map coords (Snake.head (Snake.kill snake0)) = Some (5, 5) /\
    option_map coords (Snake.head s') = Some (6, 5) /\
    List.length (Snake._segments (Snake.kill snake0)) = 1%nat /\
    List.length (Snake._segments s') = 2%nat /\
    Snake._food (Snake.kill snake0) = 4 /\
    Snake._food s' = 3.
Proof.
  split; [reflexivity|].
  eexists. split; [vm_compute; reflexivity|].
  repeat split. intros H. apply (f_equal Snake._food) in H. discriminate H.
Qed.

(** ** Sequences of calls *)

(** A constructor call that returned was given a valid context, when the
    context is one [PositionContext]'s constructor builds. *)
Lemma applyDomainVector_returns_valid (c : AxisPositionContext.t) (val v : Z) :
  AxisPositionContext.w_domain (AxisPositionContext.widths c)
    = snd (AxisPositionContext.domain c) - fst (AxisPositionContext.domain c) ->
  PositionContext.applyDomainVector val c = Returns v ->
  valid_axis c.
Proof.
  intros Hw E. split; [exact Hw|].
  destruct (Z.lt_ge_cases 0
              (AxisPositionContext.w_domain (AxisPositionContext.widths c)))
    as [Hpos|Hneg]; [exact Hpos|].
  exfalso. unfold PositionContext.applyDomainVector in E.
  destruct (Z.lt_ge_cases val (fst (AxisPositionContext.domain c))) as [Hlt|Hge].
  - rewrite while_below_stuck in E by (trivial; lia). discriminate.
  - rewrite while_below_idle in E by exact Hge.
    rewrite while_above_stuck in E by lia. discriminate.
Qed.

Lemma Position_new_inv (dom rng : Interval2D.t) (x y : Z) (n0 n : nat)
  (p : Position.t) :
  Position.new x y (PositionContext.new dom rng) n0 = Returns (p, n) ->
  valid_context (PositionContext.new dom rng) /\
  Position._context p = PositionContext.new dom rng.
Proof.
  unfold Position.new, bind, lift, fresh, ret, PositionContext.applyDomain.
  destruct (PositionContext.applyDomainVector x _) as [x'| |] eqn:Ex;
    try discriminate.
  destruct (PositionContext.applyDomainVector y _) as [y'| |] eqn:Ey;
    try discriminate.
  intros [= <- <-]. split; [|reflexivity].
  split; [eapply applyDomainVector_returns_valid with (2 := Ex)
         | eapply applyDomainVector_returns_valid with (2 := Ey)];
    reflexivity.
Qed.

Lemma call_can_move (c : SnakeCall) (s : Snake.t) (n : nat) :
  can_move s ->
  exists s' n', call c s n = Returns (s', n') /\ can_move s'.
Proof.
  intros Hm. destruct c; cbn [call]; unfold ret; eauto.
  destruct (tick_summary s n Hm) as (s' & T & Hm' & _). eauto.
Qed.

Lemma calls_can_move (cs : list SnakeCall) : forall (s : Snake.t) (n : nat),
  can_move s ->
  exists s' n', calls cs s n = Returns (s', n') /\ can_move s'.
Proof.
  induction cs as [|c cs IH]; intros s n Hm.
  - exists s, n. split; [reflexivity | exact Hm].
  - destruct (call_can_move c s n Hm) as (s1 & n1 & E & Hm1).
    destruct (IH s1 n1 Hm1) as (s' & n' & E' & Hm').
    exists s', n'. cbn [calls]. unfold bind. rewrite E. auto.
Qed.

(** C10. A snake constructed from a start position (a position whose
    constructor returned, in a context built by [PositionContext]'s
    constructor) has a segment, and after every sequence of [tick], [eat],
    [kill] and direction-setter calls, each of which returns, it still has:
    [head] is always a position. *)
Theorem segments_never_empty (dom rng : Interval2D.t) (x y : Z) (n0 n : nat)
  (start : Position.t) (initialFood : Z) (initialDirection : Direction.t)
  (cs : list SnakeCall) :
  Position.new x y (PositionContext.new dom rng) n0 = Returns (start, n) ->
  Snake._segments (Snake.new start initialFood initialDirection) <> [] /\
  exists s' n',
    calls cs (Snake.new start initialFood initialDirection) n
      = Returns (s', n') /\
    Snake._segments s' <> [] /\
    exists h, Snake.head s' = Some h.
Proof.
  intros E. split; [discriminate|].
  destruct (Position_new_inv _ _ _ _ _ _ _ E) as [Hv Hc].
  assert (Hm : can_move (Snake.new start initialFood initialDirection)).
  { exists start. split; [reflexivity | rewrite Hc; exact Hv]. }
  destruct (calls_can_move cs _ n Hm) as (s' & n' & R & (h & Hh & _)).
  exists s', n'. split; [exact R|]. split; [|eauto].
  unfold Snake.head in Hh. destruct (Snake._segments s'); discriminate.
Qed.

Lemma segments_never_empty_witness :
  Snake._segments snake0 <> [] /\
  exists s' n',
    calls [CallTick; CallSetDirection (AppComponent._directions down);
           CallTick; CallKill; CallTick] snake0 1%nat
      = Returns (s', n') /\
    Snake._segments s' <> [] /\
    exists h, Snake.head s' = Some h.
Proof.
  apply (segments_never_empty
           {| Interval2D.x := (0, 20); Interval2D.y := (0, 20) |}
           {| Interval2D.x := (0, 640); Interval2D.y := (0, 480) |}
           5 5 0%nat 1%nat start0 4 (AppComponent._directions right)).
  reflexivity.
Defined.

(** ** Cheese *)

Lemma In_Zrange (lo hi v : Z) : In v (Zrange lo hi) <-> lo <= v < hi.
Proof.
  unfold Zrange. rewrite in_map_iff. split.
  - intros (i & <- & Hi). apply in_seq in Hi. lia.
  - intros H. exists (Z.to_nat (v - lo)). split; [lia | apply in_seq; lia].
Qed.

Lemma NoDup_Zrange (lo hi : Z) : NoDup (Zrange lo hi).
Proof.
  unfold Zrange. apply NoDup_map_NoDup_ForallPairs; [|apply seq_NoDup].
  intros a b _ _ H. lia.
Qed.

Lemma length_Zrange (lo hi : Z) :
  List.length (Zrange lo hi) = Z.to_nat (hi - lo).
Proof. unfold Zrange. rewrite length_map, length_seq. reflexivity. Qed.

Lemma NoDup_list_prod {A B} (l : list A) (l' : list B) :
  NoDup l -> NoDup l' -> NoDup (list_prod l l').
Proof.
  intros Hl Hl'. induction Hl as [|a l Ha Hl IH]; cbn [list_prod].
  - constructor.
  - apply NoDup_app.
    + apply NoDup_map_NoDup_ForallPairs; [|exact Hl'].
      intros x y _ _ E. congruence.
    + exact IH.
    + intros [a' b] H1 H2. apply in_map_iff in H1 as (y & E & _).
      injection E as <- <-. apply in_prod_iff in H2. tauto.
Qed.

Lemma NoDup_grid_cells (c : PositionContext.t) : NoDup (grid_cells c).
Proof. apply NoDup_list_prod; apply NoDup_Zrange. Qed.

Lemma length_grid_cells (c : PositionContext.t) :
  List.length (grid_cells c) = total_cells c.
Proof.
  unfold grid_cells, total_cells. cbv zeta.
  rewrite length_prod, !length_Zrange. reflexivity.
Qed.

(** [possible] holds the cells of the grid that are free. *)
Lemma In_possible_cells (f : CheeseFactory.t) (snake : Snake.t) (pos : Z * Z) :
  In pos (CheeseFactory.possible_cells f snake) <->
  In pos (grid_cells (CheeseFactory._positionContext f)) /\
  is_free snake pos = true.
Proof.
  unfold CheeseFactory.possible_cells, grid_cells. cbv zeta.
  rewrite in_flat_map. split.
  - intros (x & Hx & Hin). apply in_flat_map in Hin as (y & Hy & Hin).
    fold (is_free snake (x, y)) in Hin.
    destruct (is_free snake (x, y)) eqn:E; [|contradiction].
    destruct Hin as [<-|[]]. split; [|exact E]. apply in_prod; assumption.
  - intros [Hg Hf]. destruct pos as [x y]. apply in_prod_iff in Hg.
    exists x. split; [tauto|]. apply in_flat_map. exists y. split; [tauto|].
    fold (is_free snake (x, y)). rewrite Hf. left. reflexivity.
Qed.

Lemma is_free_false (snake : Snake.t) (pos : Z * Z) :
  is_free snake pos = false -> In pos (occupied_cells snake).
Proof.
  unfold is_free, occupied_cells. intros H. apply nodup_In.
  induction (Snake._segments snake) as [|s l IH]; [discriminate|].
  cbn [forallb] in H. apply andb_false_iff in H as [H|H].
  - left. apply negb_false_iff in H. cbn in H.
    apply andb_true_iff in H as [Hx Hy].
    apply Z.eqb_eq in Hx, Hy. destruct pos; cbn in *. unfold coords. congruence.
  - right. apply IH, H.
Qed.

(** A snake on fewer cells than the grid has leaves a cell free. *)
Lemma free_cell_exists (c : PositionContext.t) (snake : Snake.t) :
  (List.length (occupied_cells snake) < total_cells c)%nat ->
  exists pos, In pos (grid_cells c) /\ is_free snake pos = true.
Proof.
  intros Hk.
  destruct (existsb (is_free snake) (grid_cells c)) eqn:E.
  - apply existsb_exists in E. exact E.
  - exfalso.
    assert (Hincl : incl (grid_cells c) (occupied_cells snake)).
    { intros pos Hin. apply is_free_false.
      destruct (is_free snake pos) eqn:F; [|reflexivity].
      assert (existsb (is_free snake) (grid_cells c) = true)
        by (apply existsb_exists; eauto).
      congruence. }
    pose proof (NoDup_incl_length (NoDup_grid_cells c) Hincl) as L.
    rewrite length_grid_cells in L. lia.
Qed.

(** The draw of an index: inside the array when the array is not empty. *)
Lemma floor_random_range (r : Q) (n : Z) :
  (0 <= r)%Q -> (r < 1)%Q -> 0 < n -> 0 <= floor_random r n < n.
Proof.
  intros H0 H1 Hn. unfold floor_random.
  assert (Hq : (inject_Z 0 < inject_Z n)%Q) by (rewrite <- Zlt_Qlt; exact Hn).
  change (inject_Z 0) with 0%Q in Hq.
  split.
  - change 0 with (Qfloor 0). apply Qfloor_resp_le.
    apply Qmult_le_0_compat; [exact H0 | apply Qlt_le_weak, Hq].
  - rewrite Zlt_Qlt. eapply Qle_lt_trans; [apply Qfloor_le|].
    setoid_replace (inject_Z n) with (1 * inject_Z n)%Q at 2 by ring.
    apply Qmult_lt_compat_r; assumption.
Qed.

Lemma applyDomainVector_inside (c : AxisPositionContext.t) (val : Z) :
  fst (AxisPositionContext.domain c) <= val < snd (AxisPositionContext.domain c) ->
  PositionContext.applyDomainVector val c = Returns val.
Proof.
  intros H. unfold PositionContext.applyDomainVector.
  rewrite while_below_idle by lia. rewrite while_above_idle by lia.
  reflexivity.
Qed.

Lemma Position_new_inside (c : PositionContext.t) (pos : Z * Z) (n : nat) :
  In pos (grid_cells c) ->
  Position.new (fst pos) (snd pos) c n =
    Returns ({| Position.oid := n; Position._x := fst pos;
                Position._y := snd pos; Position._context := c |}, S n).
Proof.
  destruct pos as [x y]. unfold grid_cells. cbv zeta.
  rewrite in_prod_iff, !In_Zrange. intros [Hx Hy].
  unfold Position.new, bind, lift, fresh, ret, PositionContext.applyDomain.
  cbn [fst snd].
  rewrite (applyDomainVector_inside _ x Hx), (applyDomainVector_inside _ y Hy).
  reflexivity.
Qed.

Lemma is_free_true (snake : Snake.t) (pos : Z * Z) (s : Position.t) :
  is_free snake pos = true -> In s (Snake._segments snake) ->
  coords s <> pos.
Proof.
  unfold is_free. rewrite forallb_forall. intros H Hin E.
  specialize (H s Hin). apply negb_true_iff in H. subst pos.
  cbn in H. rewrite !Z.eqb_refl in H. discriminate.
Qed.

(** What [generatePosition] returns when the snake leaves room. *)
Lemma generatePosition_free (f : CheeseFactory.t) (snake : Snake.t) (r : Q)
  (n : nat) :
  (0 <= r)%Q -> (r < 1)%Q ->
  (List.length (occupied_cells snake)
   < total_cells (CheeseFactory._positionContext f))%nat ->
  exists pos,
    In pos (CheeseFactory.possible_cells f snake) /\
    CheeseFactory.generatePosition f r snake n =
      Returns ({| Position.oid := n; Position._x := fst pos;
                  Position._y := snd pos;
                  Position._context := CheeseFactory._positionContext f |},
               S n).
Proof.
  intros H0 H1 Hk.
  destruct (free_cell_exists _ snake Hk) as (p0 & Hg0 & Hf0).
  assert (Hp0 : In p0 (CheeseFactory.possible_cells f snake))
    by (apply In_possible_cells; auto).
  unfold CheeseFactory.generatePosition. cbv zeta.
  set (possible := CheeseFactory.possible_cells f snake) in *.
  assert (Hlen : 0 < Z.of_nat (List.length possible))
    by (destruct possible; [contradiction | cbn; lia]).
  destruct (floor_random_range r _ H0 H1 Hlen) as [Hlo Hhi].
  unfold array_get. destruct (Z.ltb_spec (floor_random r (Z.of_nat (List.length possible))) 0);
    [lia|].
  destruct (nth_error possible (Z.to_nat (floor_random r (Z.of_nat (List.length possible)))))
    as [pos|] eqn:E.
  - exists pos. pose proof (nth_error_In _ _ E) as Hin. split; [exact Hin|].
    apply Position_new_inside. apply In_possible_cells in Hin. tauto.
  - apply nth_error_None in E. lia.
Qed.

Lemma createCheese_free (f : CheeseFactory.t) (snake : Snake.t) (r1 r2 : Q)
  (n : nat) :
  (0 <= r1)%Q -> (r1 < 1)%Q ->
  (List.length (occupied_cells snake)
   < total_cells (CheeseFactory._positionContext f))%nat ->
  exists cheese,
    CheeseFactory.createCheese f r1 r2 snake n = Returns (cheese, S n) /\
    In (coords (Cheese._position cheese)) (CheeseFactory.possible_cells f snake).
Proof.
  intros H0 H1 Hk.
  destruct (generatePosition_free f snake r1 n H0 H1 Hk) as (pos & Hin & E).
  unfold CheeseFactory.createCheese, bind, ret. rewrite E.
  eexists. split; [reflexivity|]. cbn. destruct pos; exact Hin.
Qed.

(** C5. When the snake lies on fewer cells than the grid has, then for
    every draw of the random source [createCheese] returns, and the cheese
    it returns is at a position that equals none of the snake's
    segments. *)
Theorem createCheese_off_snake (f : CheeseFactory.t) (snake : Snake.t)
  (r1 r2 : Q) (n : nat) :
  (0 <= r1)%Q -> (r1 < 1)%Q ->
  (List.length (occupied_cells snake)
   < total_cells (CheeseFactory._positionContext f))%nat ->
  exists cheese,
    CheeseFactory.createCheese f r1 r2 snake n = Returns (cheese, S n) /\
    forall s, In s (Snake._segments snake) ->
      Position.equals (Cheese._position cheese) (Position.APosition s) = false /\
      Position.equals s (Position.APosition (Cheese._position cheese)) = false.
Proof.
  intros H0 H1 Hk.
  destruct (createCheese_free f snake r1 r2 n H0 H1 Hk) as (cheese & E & Hin).
  exists cheese. split; [exact E|]. intros s Hs.
  apply In_possible_cells in Hin as [_ Hfree].
  pose proof (is_free_true snake _ s Hfree Hs) as Hne.
  unfold coords in Hne. cbn [Position.equals].
  assert (A : (Position._x s =? Position._x (Cheese._position cheese))
              && (Position._y s =? Position._y (Cheese._position cheese))
              = false).
  { apply andb_false_iff.
    destruct (Z.eqb_spec (Position._x s) (Position._x (Cheese._position cheese)));
      [|auto].
    destruct (Z.eqb_spec (Position._y s) (Position._y (Cheese._position cheese)));
      [|auto].
    congruence. }
  split; [exact A|].
  rewrite (Z.eqb_sym (Position._x (Cheese._position cheese))),
          (Z.eqb_sym (Position._y (Cheese._position cheese))).
  exact A.
Qed.

Lemma createCheese_off_snake_witness :
  exists cheese,
    CheeseFactory.createCheese AppComponent.cheeseFactory0 (1 # 2) (1 # 3)
      snake0 1%nat = Returns (cheese, 2%nat) /\
    forall s, In s (Snake._segments snake0) ->
      Position.equals (Cheese._position cheese) (Position.APosition s) = false /\
      Position.equals s (Position.APosition (Cheese._position cheese)) = false.
Proof.
  apply (createCheese_off_snake AppComponent.cheeseFactory0 snake0
           (1 # 2) (1 # 3) 1%nat).
  - discriminate.
  - reflexivity.
  - vm_compute. lia.
Defined.

(** C8 fails on the code. On the full board nothing is free, [possible] is
    empty, [possible[choice]] is [undefined] whatever the draw, and reading
    its element 0 throws a [TypeError]: [createCheese] has no case for the
    empty candidate list. *)
Theorem createCheese_full_board (r1 r2 : Q) (n : nat) :
  List.length (Snake._segments full_board_snake) = 400%nat /\
  total_cells AppComponent.positionContext0 = 400%nat /\
  List.length (occupied_cells full_board_snake) = 400%nat /\
  CheeseFactory.possible_cells AppComponent.cheeseFactory0 full_board_snake
    = [] /\
  array_get
    (CheeseFactory.possible_cells AppComponent.cheeseFactory0 full_board_snake)
    (floor_random r1 0) = None /\
  CheeseFactory.createCheese AppComponent.cheeseFactory0 r1 r2
    full_board_snake n = Throws.
Proof.
  assert (P : CheeseFactory.possible_cells AppComponent.cheeseFactory0
                full_board_snake = []) by (vm_compute; reflexivity).
  assert (G : forall i, array_get (@nil (Z * Z)) i = None).
  { intros i. unfold array_get. destruct (i <? 0); [reflexivity|].
    destruct (Z.to_nat i); reflexivity. }
  split; [vm_compute; reflexivity|]. split; [vm_compute; reflexivity|].
  split; [vm_compute; reflexivity|]. split; [exact P|].
  split; [rewrite P; apply G|].
  unfold CheeseFactory.createCheese, CheeseFactory.generatePosition, bind.
  cbv zeta. rewrite P. rewrite G. reflexivity.
Qed.

(** ** A new game *)

Lemma ngAfterViewInit_returns (r1 r2 : Q) :
  (0 <= r1)%Q -> (r1 < 1)%Q ->
  exists cheese,
    AppComponent.ngAfterViewInit r1 r2 0%nat =
      Returns ({| AppComponent.gameOver := false;
                  AppComponent._cheeseFactory := AppComponent.cheeseFactory0;
                  AppComponent._cheese := cheese;
                  AppComponent._snake := snake0;
                  AppComponent._positionContext := AppComponent.positionContext0 |},
               2%nat) /\
    In (coords (Cheese._position cheese))
      (CheeseFactory.possible_cells AppComponent.cheeseFactory0 snake0).
Proof.
  intros H0 H1.
  destruct (createCheese_free AppComponent.cheeseFactory0 snake0 r1 r2 1%nat
              H0 H1) as (cheese & E & Hin); [vm_compute; lia|].
  exists cheese. split; [|exact Hin].
  unfold AppComponent.ngAfterViewInit, AppComponent.initGame, bind.
  change (Position.new 5 5 AppComponent.positionContext0 0%nat)
    with (Returns (start0, 1%nat)).
  cbv beta iota.
  change (Snake.new start0 4 (AppComponent._directions right)) with snake0.
  rewrite E. reflexivity.
Qed.

(** C9, as the code has it. The game starts with the snake as one segment
    at (5,5), heading right, with pending food 4, whatever the draws for
    the first cheese.  After one tick the head is at (6,5), there are 2
    segments and the pending food is 3; after 4 more ticks the head is at
    (10,5) and there are 5 segments; and from the fourth tick on the count
    stays 5. *)
Theorem new_game_scenario (r1 r2 : Q) :
  (0 <= r1)%Q -> (r1 < 1)%Q ->
  exists app,
    AppComponent.ngAfterViewInit r1 r2 0%nat = Returns (app, 2%nat) /\
    AppComponent._snake app = snake0 /\
    option_map coords (Snake.head snake0) = Some (5, 5) /\
    List.length (Snake._segments snake0) = 1%nat /\
    Snake._food snake0 = 4 /\
    (exists s1,
       ticks 1 snake0 2%nat = Returns (s1, 3%nat) /\
       option_map coords (Snake.head s1) = Some (6, 5) /\
       List.length (Snake._segments s1) = 2%nat /\
       Snake._food s1 = 3) /\
    (exists s5,
       ticks 5 snake0 2%nat = Returns (s5, 7%nat) /\
       option_map coords (Snake.head s5) = Some (10, 5) /\
       List.length (Snake._segments s5) = 5%nat /\
       Snake._food s5 = 0) /\
    (forall k, exists s,
       ticks (4 + k) snake0 2%nat = Returns (s, (2 + (4 + k))%nat) /\
       List.length (Snake._segments s) = 5%nat).
Proof.
  intros H0 H1.
  destruct (ngAfterViewInit_returns r1 r2 H0 H1) as (cheese & E & _).
  eexists. split; [exact E|]. split; [reflexivity|].
  split; [reflexivity|]. split; [reflexivity|]. split; [reflexivity|].
  split; [eexists; split; [vm_compute; reflexivity | repeat split]|].
  split; [eexists; split; [vm_compute; reflexivity | repeat split]|].
  intros k.
  destruct (ticks_growth (4 + k) snake0 2%nat snake0_can_move)
    as (s & R & _ & _ & _ & L); [cbn; lia|].
  exists s. split; [exact R|]. cbn [snake0 Snake.new Snake._segments Snake._food List.length] in L.
  lia.
Qed.

Lemma new_game_scenario_witness :
  exists app,
    AppComponent.ngAfterViewInit (1 # 2) (1 # 3) 0%nat = Returns (app, 2%nat) /\
    AppComponent._snake app = snake0 /\
    option_map coords (Snake.head snake0) = Some (5, 5) /\
    List.length (Snake._segments snake0) = 1%nat /\
    Snake._food snake0 = 4 /\
    (exists s1,
       ticks 1 snake0 2%nat = Returns (s1, 3%nat) /\
       option_map coords (Snake.head s1) = Some (6, 5) /\
       List.length (Snake._segments s1) = 2%nat /\
       Snake._food s1 = 3) /\
    (exists s5,
       ticks 5 snake0 2%nat = Returns (s5, 7%nat) /\
       option_map coords (Snake.head s5) = Some (10, 5) /\
       List.length (Snake._segments s5) = 5%nat /\
       Snake._food s5 = 0) /\
    (forall k, exists s,
       ticks (4 + k) snake0 2%nat = Returns (s, (2 + (4 + k))%nat) /\
       List.length (Snake._segments s) = 5%nat).
Proof.
  apply (new_game_scenario (1 # 2) (1 # 3)).
  - discriminate.
  - reflexivity.
Defined.

(** C9 as stated fails: in the new game (draws 1/2 and 1/3 for the first
    cheese) the snake has 2 segments after the first tick, not 5, and 5
    segments after four more ticks, not 8. *)
Lemma new_game_scenario_counts :
  exists app s1 s5,
    AppComponent.ngAfterViewInit (1 # 2) (1 # 3) 0%nat = Returns (app, 2%nat) /\
    ticks 1 (AppComponent._snake app) 2%nat = Returns (s1, 3%nat) /\
    ticks 5 (AppComponent._snake app) 2%nat = Returns (s5, 7%nat) /\
    option_map coords (Snake.head s1) = Some (6, 5) /\
    Snake._food s1 = 3 /\
    List.length (Snake._segments s1) = 2%nat /\
    List.length (Snake._segments s1) <> 5%nat /\
    option_map coords (Snake.head s5) = Some (10, 5) /\
    List.length (Snake._segments s5) = 5%nat /\
    List.length (Snake._segments s5) <> 8%nat.
Proof.
  do 3 eexists.
  split; [vm_compute; reflexivity|].
  split; [vm_compute; reflexivity|].
  split; [vm_compute; reflexivity|].
  repeat split; discriminate.
Qed.

(** ** Self-collision *)

Lemma removelast_In {A} (x : A) (l : list A) :
  In x (removelast l) -> In x l.
Proof.
  induction l as [|a l IH]; [trivial|].
  destruct l as [|b l]; [intros []|].
  rewrite removelast_cons_head. intros [->|H]; [left; reflexivity|].
  right. apply IH, H.
Qed.

Lemma NoDup_map_removelast {A B} (f : A -> B) (l : list A) :
  NoDup (map f l) -> NoDup (map f (removelast l)).
Proof.
  induction l as [|a l IH]; [trivial|].
  destruct l as [|b l]; [intros _; constructor|].
  rewrite removelast_cons_head. cbn [map]. intros H.
  apply NoDup_cons_iff in H as [Hn Hd]. constructor.
  - intros Hin. apply Hn. apply in_map_iff in Hin as (x & E & Hx).
    rewrite <- E. apply (in_map f (b :: l) x). apply removelast_In, Hx.
  - apply IH, Hd.
Qed.

Lemma Forall_removelast {A} (P : A -> Prop) (l : list A) :
  Forall P l -> Forall P (removelast l).
Proof.
  intros H. apply Forall_forall. intros x Hx.
  apply (proj1 (Forall_forall P l) H). apply removelast_In, Hx.
Qed.

Lemma segments_distinct_mono (s : Snake.t) (n m : nat) :
  (n <= m)%nat -> segments_distinct s n -> segments_distinct s m.
Proof.
  intros L [Hd Hf]. split; [exact Hd|].
  apply Forall_forall. intros p Hp.
  pose proof (proj1 (Forall_forall _ _) Hf p Hp). cbn in *. lia.
Qed.

(** A tick keeps the segments different objects: the new head is a new
    object. *)
Lemma tick_distinct (s s' : Snake.t) (n n' : nat) :
  can_move s -> segments_distinct s n ->
  Snake.tick s n = Returns (s', n') ->
  n' = S n /\ can_move s' /\ segments_distinct s' n' /\
  Snake._dead s' = Snake._dead s.
Proof.
  intros Hm [Hd Hf] T.
  destruct (tick_summary s n Hm) as (s1 & T1 & Hm1 & Hdead & _).
  assert (s1 = s' /\ S n = n') as [-> <-] by (split; congruence).
  split; [reflexivity|]. split; [exact Hm1|]. split; [|exact Hdead].
  destruct Hm as (h & Hh & Hc).
  destruct (tick_returns s h n Hh Hc) as (p & _ & Ho & _ & T2).
  assert (D1 : NoDup (map Position.oid (p :: Snake._segments s))).
  { cbn [map]. constructor; [|exact Hd]. intros Hin.
    apply in_map_iff in Hin as (q & E & Hq).
    pose proof (proj1 (Forall_forall _ _) Hf q Hq) as L. cbn in L. lia. }
  assert (D2 : Forall (fun q => (Position.oid q < S n)%nat)
                 (p :: Snake._segments s)).
  { constructor; [lia|]. apply Forall_forall. intros q Hq.
    pose proof (proj1 (Forall_forall _ _) Hf q Hq) as L. cbn in *. lia. }
  rewrite T1 in T2. clear T1.
  assert (E : Snake._segments s' =
              if Snake._food s >? 0 then p :: Snake._segments s
              else removelast (p :: Snake._segments s))
    by (injection T2 as ->; reflexivity).
  unfold segments_distinct. rewrite E.
  destruct (Snake._food s >? 0); split; trivial.
  - apply NoDup_map_removelast, D1.
  - apply Forall_removelast, D2.
Qed.

(** When the segments are different objects, the condition of the
    self-collision check holds exactly if a later segment is at the head's
    coordinates. *)
Lemma self_collision_iff (s : Snake.t) (n : nat) :
  segments_distinct s n ->
  AppComponent.self_collision s = true <-> head_hits_body s.
Proof.
  intros [Hd _]. unfold AppComponent.self_collision, head_hits_body, Snake.head.
  destruct (Snake._segments s) as [|h rest].
  - cbn. split; [discriminate|]. intros (h & i & p & H & _). discriminate.
  - cbn [hd_error Position.of_option existsb Position.not_same].
    rewrite Nat.eqb_refl. cbn [negb andb orb].
    cbn [map] in Hd. apply NoDup_cons_iff in Hd as [Hn _].
    rewrite existsb_exists. split.
    + intros (p & Hp & E). apply andb_true_iff in E as [_ E].
      cbn in E. apply andb_true_iff in E as [Ex Ey].
      apply Z.eqb_eq in Ex, Ey.
      apply In_nth_error in Hp as (i & Hi).
      exists h, (S i), p. repeat split; trivial; [lia|].
      unfold coords. congruence.
    + intros (h' & i & p & [= <-] & Hi & Hnth & E).
      destruct i as [|i]; [lia|]. cbn in Hnth.
      exists p. pose proof (nth_error_In _ _ Hnth) as Hp. split; [exact Hp|].
      apply andb_true_iff. split.
      * apply negb_true_iff, Nat.eqb_neq. intros Eo. apply Hn.
        apply in_map_iff. exists p. auto.
      * unfold coords in E. injection E as Ex Ey. cbn.
        rewrite Ex, Ey, !Z.eqb_refl. reflexivity.
Qed.

Lemma createCheese_counter (f : CheeseFactory.t) (r1 r2 : Q) (s : Snake.t)
  (n n' : nat) (cheese : Cheese.t) :
  CheeseFactory.createCheese f r1 r2 s n = Returns (cheese, n') -> n' = S n.
Proof.
  unfold CheeseFactory.createCheese, CheeseFactory.generatePosition, bind, ret.
  cbv zeta. destruct (array_get _ _) as [pos|]; [|discriminate].
  unfold Position.new, bind, lift, fresh, ret.
  destruct (PositionContext.applyDomain _ _ _) as [xy| |]; try discriminate.
  intros [= _ <-]. reflexivity.
Qed.

(** One timer tick of the component keeps [app_ok]. *)
Lemma AppComponent_tick_ok (app app' : AppComponent.t) (r1 r2 : Q)
  (n n' : nat) :
  app_ok app n ->
  AppComponent.gameOver app = false ->
  AppComponent.tick app r1 r2 n = Returns (app', n') ->
  app_ok app' n'.
Proof.
  intros (Hm & Hdis & Hdead & Hover) Hgo.
  unfold AppComponent.tick, bind.
  destruct (Snake.tick (AppComponent._snake app) n) as [[s1 n1]| |] eqn:T;
    try discriminate.
  destruct (tick_distinct _ _ _ _ Hm Hdis T) as (-> & Hm1 & Hdis1 & Hd1).
  assert (Halive : Snake._dead s1 = false) by congruence.
  pose proof (self_collision_iff s1 (S n) Hdis1) as Hcol.
  cbv zeta.
  set (s2 := if AppComponent.self_collision s1 then Snake.kill s1 else s1).
  assert (Hs2 : Snake._segments s2 = Snake._segments s1 /\
                Snake.head s2 = Snake.head s1 /\
                Snake._dead s2 = AppComponent.self_collision s1).
  { unfold s2. destruct (AppComponent.self_collision s1); repeat split.
    exact Halive. }
  destruct Hs2 as (Hseg2 & Hhead2 & Hdead2).
  assert (Hok2 : forall s3 m,
             Snake._segments s3 = Snake._segments s2 ->
             Snake._dead s3 = Snake._dead s2 ->
             (S n <= m)%nat ->
             can_move s3 /\ segments_distinct s3 m /\
             (Snake._dead s3 = true <-> head_hits_body s3)).
  { intros s3 m Hseg3 Hdead3 Hle.
    assert (Hh3 : Snake.head s3 = Snake.head s1)
      by (unfold Snake.head; rewrite Hseg3, Hseg2; reflexivity).
    split; [|split].
    - destruct Hm1 as (h & Hh & Hc). exists h. rewrite Hh3. auto.
    - apply (segments_distinct_mono s3 (S n) m Hle).
      unfold segments_distinct. rewrite Hseg3, Hseg2. exact Hdis1.
    - rewrite Hdead3, Hdead2, Hcol. unfold head_hits_body.
      rewrite Hh3, Hseg3, Hseg2. tauto. }
  assert (Hover' : (if AppComponent.self_collision s1 then true
                    else AppComponent.gameOver app) = Snake._dead s2).
  { rewrite Hdead2, Hgo. destruct (AppComponent.self_collision s1); reflexivity. }
  destruct (Position.equals _ _).
  - destruct (CheeseFactory.createCheese _ _ _ _ _) as [[cheese n2]| |] eqn:C;
      try discriminate.
    apply createCheese_counter in C. subst n2.
    unfold ret. intros [= <- <-]. unfold app_ok.
    cbn [AppComponent._snake AppComponent.gameOver].
    destruct (Hok2 (Snake.eat s2 (AppComponent._cheese app)) (S (S n)))
      as (A & B & C); trivial; [lia|].
    split; [exact A|]. split; [exact B|]. split; [exact C|]. exact Hover'.
  - unfold ret. intros [= <- <-]. unfold app_ok.
    cbn [AppComponent._snake AppComponent.gameOver].
    destruct (Hok2 s2 (S n)) as (A & B & C); trivial.
    split; [exact A|]. split; [exact B|]. split; [exact C|]. exact Hover'.
Qed.

Example game0_init :
  AppComponent.ngAfterViewInit (1 # 2) (1 # 3) 0%nat = Returns (game0, 2%nat).
Proof. vm_compute. reflexivity. Qed.

(** A new game is in a state [app_ok], whatever the first cheese. *)
Lemma ngAfterViewInit_ok (r1 r2 : Q) (app : AppComponent.t) (n : nat) :
  AppComponent.ngAfterViewInit r1 r2 0%nat = Returns (app, n) ->
  app_ok app n.
Proof.
  unfold AppComponent.ngAfterViewInit, AppComponent.initGame, bind.
  change (Position.new 5 5 AppComponent.positionContext0 0%nat)
    with (Returns (start0, 1%nat)).
  cbv beta iota.
  change (Snake.new start0 4 (AppComponent._directions right)) with snake0.
  destruct (CheeseFactory.createCheese _ _ _ _ _) as [[cheese n1]| |] eqn:C;
    try discriminate.
  apply createCheese_counter in C. subst n1. unfold ret. intros [= <- <-].
  split; [exact snake0_can_move|]. split; [|split; [|reflexivity]].
  - split; cbn.
    + constructor; [intros []|constructor].
    + constructor; [cbn; lia|constructor].
  - split; [discriminate|].
    intros (h & i & s & _ & Hi & Hn & _). destruct i as [|i]; [lia|].
    destruct i; discriminate.
Qed.

Lemma game0_ok : app_ok game0 2%nat.
Proof. exact (ngAfterViewInit_ok (1 # 2) (1 # 3) game0 2%nat game0_init). Qed.

(** ** Runs of the component *)

Lemma handleUserInput_ok (app : AppComponent.t) (key : String.string) (n : nat) :
  app_ok app n ->
  app_ok (AppComponent.handleUserInput app key) n /\
  is_dead (AppComponent.handleUserInput app key) = is_dead app.
Proof.
  intros Hok. unfold AppComponent.handleUserInput.
  destruct (AppComponent.getNewDirection key) as [d|]; [|auto].
  destruct (Direction.isTurn d _); [|auto].
  split; [|reflexivity]. exact Hok.
Qed.

(** Delivering an event keeps [app_ok]; nothing changes once the snake is
    dead; and only a timer tick makes the snake dead. *)
Lemma deliver_ok (e : Event) (app app' : AppComponent.t) (n n' : nat) :
  app_ok app n ->
  deliver e app n = Returns (app', n') ->
  app_ok app' n' /\
  (is_dead app = true -> app' = app) /\
  (is_dead app = false -> is_dead app' = true ->
   exists r1 r2, e = TimerTick r1 r2).
Proof.
  intros Hok. pose proof Hok as (_ & _ & _ & Hover).
  unfold deliver, is_dead. destruct (AppComponent.gameOver app) eqn:G.
  - unfold ret. intros [= <- <-]. split; [exact Hok|]. split; [reflexivity|].
    congruence.
  - destruct e as [key|r1 r2].
    + unfold ret. intros [= <- <-].
      destruct (handleUserInput_ok app key n Hok) as [Hok' Hd].
      split; [exact Hok'|]. split; [congruence|].
      unfold is_dead in Hd. congruence.
    + intros T. split; [exact (AppComponent_tick_ok _ _ _ _ _ _ Hok G T)|].
      split; [congruence | eauto].
Qed.

Lemma run_invariant (events : list Event) :
  forall (app0 : AppComponent.t) (n0 : nat) (history : list AppComponent.t)
         (n' : nat),
  app_ok app0 n0 ->
  run events app0 n0 = Returns (history, n') ->
  forall k before after,
    nth_error (app0 :: history) k = Some before ->
    nth_error history k = Some after ->
    (exists m, app_ok before m) /\ (exists m, app_ok after m) /\
    (is_dead before = true -> after = before) /\
    (is_dead before = false -> is_dead after = true ->
     exists r1 r2, nth_error events k = Some (TimerTick r1 r2)).
Proof.
  induction events as [|e events IH]; intros app0 n0 history n' Hok R k
    before after Hb Ha.
  - cbn in R. unfold ret in R. injection R as <- <-.
    destruct k; discriminate.
  - cbn [run] in R. unfold bind in R.
    destruct (deliver e app0 n0) as [[app1 n1]| |] eqn:D; try discriminate.
    destruct (run events app1 n1) as [[rest n2]| |] eqn:R1; try discriminate.
    unfold ret in R. injection R as <- <-.
    destruct (deliver_ok e app0 app1 n0 n1 Hok D) as (Hok1 & Hstay & Htick).
    destruct k as [|k].
    + cbn in Hb, Ha. injection Hb as <-. injection Ha as <-.
      split; [eauto|]. split; [eauto|]. split; [exact Hstay|].
      intros H1 H2. destruct (Htick H1 H2) as (r1 & r2 & ->). cbn. eauto.
    + cbn [nth_error] in Hb, Ha |- *.
      exact (IH app1 n1 rest n2 Hok1 R1 k before after Hb Ha).
Qed.

(** Once dead, the component stays as it is. *)
Lemma run_dead_stays (events : list Event) (app0 : AppComponent.t) (n0 : nat)
  (history : list AppComponent.t) (n' : nat) :
  app_ok app0 n0 ->
  run events app0 n0 = Returns (history, n') ->
  forall d j a b,
    nth_error (app0 :: history) j = Some a ->
    nth_error (app0 :: history) (j + d) = Some b ->
    is_dead a = true -> b = a.
Proof.
  intros Hok R. induction d as [|d IH]; intros j a b Ha Hb Hd.
  - rewrite Nat.add_0_r in Hb. congruence.
  - destruct (nth_error (app0 :: history) (j + d)) as [c|] eqn:Hc.
    + pose proof (IH j a c Ha Hc Hd) as ->.
      replace (j + S d)%nat with (S (j + d)) in Hb by lia. cbn in Hb.
      destruct (run_invariant events app0 n0 history n' Hok R (j + d) a b Hc Hb)
        as (_ & _ & Hstay & _).
      exact (Hstay Hd).
    + apply nth_error_None in Hc.
      assert (nth_error (app0 :: history) (j + S d) = None)
        by (apply nth_error_None; lia).
      congruence.
Qed.

(** C4. In every run of the component (key presses and timer ticks, from
    a state as a game reaches it), at every event: the snake is dead after
    the event exactly if its head then lies on one of its other segments;
    the event is the one that flags the snake dead (alive before, dead
    after) exactly if the head lies on another segment after it and did so
    after no earlier event, nor at the start; and such an event is a timer
    tick. *)
Theorem dead_at_first_collision (events : list Event) (app0 : AppComponent.t)
  (n0 : nat) (history : list AppComponent.t) (n' : nat) (k : nat)
  (before after : AppComponent.t) :
  app_ok app0 n0 ->
  run events app0 n0 = Returns (history, n') ->
  nth_error (app0 :: history) k = Some before ->
  nth_error history k = Some after ->
  (is_dead after = true <-> head_hits_body (AppComponent._snake after)) /\
  ((is_dead before = false /\ is_dead after = true) <->
   (head_hits_body (AppComponent._snake after) /\
    forall j a, (j <= k)%nat -> nth_error (app0 :: history) j = Some a ->
                ~ head_hits_body (AppComponent._snake a))) /\
  (is_dead before = false -> is_dead after = true ->
   exists r1 r2, nth_error events k = Some (TimerTick r1 r2)).
Proof.
  intros Hok R Hb Ha.
  destruct (run_invariant events app0 n0 history n' Hok R k before after Hb Ha)
    as ((mb & Hokb) & (ma & Hoka) & Hstay & Htick).
  pose proof Hoka as (_ & _ & Hda & _).
  pose proof Hokb as (_ & _ & Hdb & _).
  split; [exact Hda|]. split; [|exact Htick].
  split.
  - intros [Hbf Haf]. split; [apply Hda, Haf|].
    intros j a Hj Hja Hhit.
    assert (Hdead : is_dead a = true).
    { destruct j as [|j].
      - cbn in Hja. injection Hja as <-.
        destruct Hok as (_ & _ & Hd0 & _). apply Hd0, Hhit.
      - cbn in Hja.
        destruct (nth_error (app0 :: history) j) as [c|] eqn:Hc.
        + destruct (run_invariant events app0 n0 history n' Hok R j c a Hc Hja)
            as (_ & (m & (_ & _ & Hd & _)) & _).
          apply Hd, Hhit.
        + apply nth_error_None in Hc.
          assert (nth_error history j = None)
            by (apply nth_error_None; cbn in Hc; lia).
          congruence. }
    replace k with (j + (k - j))%nat in Hb by lia.
    pose proof (run_dead_stays events app0 n0 history n' Hok R _ _ _ _
                  Hja Hb Hdead) as ->.
    congruence.
  - intros [Hhit Hfirst]. split; [|apply Hda, Hhit].
    destruct (is_dead before) eqn:E; [|reflexivity].
    exfalso. apply (Hfirst k before (le_n k) Hb). apply Hdb, E.
Qed.

Lemma dead_at_first_collision_witness :
  exists history n' before after,
    run tight_loop game0 2%nat = Returns (history, n') /\
    nth_error (game0 :: history) 6 = Some before /\
    nth_error history 6 = Some after /\
    is_dead before = false /\
    is_dead after = true /\
    (is_dead after = true <-> head_hits_body (AppComponent._snake after)) /\
    ((is_dead before = false /\ is_dead after = true) <->
     (head_hits_body (AppComponent._snake after) /\
      forall j a, (j <= 6)%nat -> nth_error (game0 :: history) j = Some a ->
                  ~ head_hits_body (AppComponent._snake a))) /\
    (is_dead before = false -> is_dead after = true ->
     exists r1 r2, nth_error tight_loop 6 = Some (TimerTick r1 r2)).
Proof.
  assert (R : exists history n', run tight_loop game0 2%nat = Returns (history, n') /\
            exists before after,
              nth_error (game0 :: history) 6 = Some before /\
              nth_error history 6 = Some after /\
              is_dead before = false /\ is_dead after = true).
  { eexists. eexists. split; [vm_compute; reflexivity|].
    eexists. eexists. repeat split. }
  destruct R as (history & n' & R & before & after & Hb & Ha & Db & Da).
  exists history, n', before, after.
  split; [exact R|]. split; [exact Hb|]. split; [exact Ha|].
  split; [exact Db|]. split; [exact Da|].
  exact (dead_at_first_collision tight_loop game0 2%nat history n' 6
           before after game0_ok R Hb Ha).
Defined.

(** * Further properties *)

(** ** The wrap-around is reduction modulo the width *)

Lemma while_below_steps (fuel : nat) :
  forall (c : AxisPositionContext.t) (val v : Z),
  PositionContext.while_below fuel c val = Some v ->
  exists k,
    0 <= k /\
    v = val + k * AxisPositionContext.w_domain (AxisPositionContext.widths c).
Proof.
  induction fuel as [|fuel IH]; intros c val v; cbn [PositionContext.while_below];
    destruct (val <? fst (AxisPositionContext.domain c));
    try discriminate; try (intros [= <-]; exists 0; lia).
  intros E. destruct (IH _ _ _ E) as (k & Hk & ->). exists (k + 1). lia.
Qed.

Lemma while_above_steps (fuel : nat) :
  forall (c : AxisPositionContext.t) (val v : Z),
  PositionContext.while_above fuel c val = Some v ->
  exists k,
    0 <= k /\
    v = val - k * (snd (AxisPositionContext.domain c)
                   - fst (AxisPositionContext.domain c)).
Proof.
  induction fuel as [|fuel IH]; intros c val v; cbn [PositionContext.while_above];
    destruct (val >=? snd (AxisPositionContext.domain c));
    try discriminate; try (intros [= <-]; exists 0; lia).
  intros E. destruct (IH _ _ _ E) as (k & Hk & ->). exists (k + 1). lia.
Qed.

Lemma applyDomainVector_torus (c : AxisPositionContext.t) (val : Z) :
  valid_axis c ->
  PositionContext.applyDomainVector val c = Returns (torus c val).
Proof.
  intros Hc. destruct (applyDomainVector_valid c val Hc) as (v & E & Hin & _).
  rewrite E. f_equal. destruct Hc as [Hw Hpos]. cbv zeta in Hw, Hpos.
  unfold PositionContext.applyDomainVector in E.
  destruct (PositionContext.while_below _ c val) as [v1|] eqn:E1;
    [|discriminate].
  destruct (PositionContext.while_above _ c v1) as [v2|] eqn:E2;
    [|discriminate].
  injection E as ->.
  destruct (while_below_steps _ _ _ _ E1) as (k1 & _ & ->).
  destruct (while_above_steps _ _ _ _ E2) as (k2 & _ & Hv).
  unfold torus.
  set (w := AxisPositionContext.w_domain (AxisPositionContext.widths c)) in *.
  set (lo := fst (AxisPositionContext.domain c)) in *.
  set (hi := snd (AxisPositionContext.domain c)) in *.
  assert (Hr : v - lo = (val - lo) mod w).
  { apply (Z.mod_unique_pos (val - lo) w (k2 - k1) (v - lo)); [lia|].
    rewrite Hv, <- Hw. ring. }
  lia.
Qed.

Lemma torus_range (c : AxisPositionContext.t) (val : Z) :
  valid_axis c ->
  fst (AxisPositionContext.domain c) <= torus c val
  < snd (AxisPositionContext.domain c).
Proof.
  intros [Hw Hpos]. cbv zeta in Hw, Hpos. unfold torus.
  pose proof (Z.mod_pos_bound (val - fst (AxisPositionContext.domain c)) _ Hpos).
  lia.
Qed.

Lemma torus_inside (c : AxisPositionContext.t) (val : Z) :
  valid_axis c ->
  fst (AxisPositionContext.domain c) <= val < snd (AxisPositionContext.domain c) ->
  torus c val = val.
Proof.
  intros [Hw Hpos] Hin. cbv zeta in Hw, Hpos. unfold torus.
  rewrite Z.mod_small by lia. lia.
Qed.

Lemma torus_add (c : AxisPositionContext.t) (val d : Z) :
  torus c (torus c val + d) = torus c (val + d).
Proof.
  unfold torus.
  set (w := AxisPositionContext.w_domain (AxisPositionContext.widths c)).
  set (lo := fst (AxisPositionContext.domain c)).
  f_equal.
  replace (lo + (val - lo) mod w + d - lo) with ((val - lo) mod w + d) by ring.
  replace (val + d - lo) with ((val - lo) + d) by ring.
  apply Zplus_mod_idemp_l.
Qed.

(** X1. On an axis with a positive width the normalisation is reduction
    modulo the width, counted from the lower bound: it returns
    [min + (val - min) mod width]; hence values that differ by a whole
    number of widths are normalised to the same cell. *)
Theorem applyDomainVector_modulo (c : AxisPositionContext.t) (val k : Z) :
  valid_axis c ->
  PositionContext.applyDomainVector val c =
    Returns (fst (AxisPositionContext.domain c)
             + (val - fst (AxisPositionContext.domain c))
               mod AxisPositionContext.w_domain (AxisPositionContext.widths c))
  /\
  PositionContext.applyDomainVector
    (val + k * AxisPositionContext.w_domain (AxisPositionContext.widths c)) c
  = PositionContext.applyDomainVector val c.
Proof.
  intros Hc. split; [exact (applyDomainVector_torus c val Hc)|].
  rewrite !applyDomainVector_torus by exact Hc. f_equal. unfold torus. f_equal.
  replace (val + k * AxisPositionContext.w_domain (AxisPositionContext.widths c)
           - fst (AxisPositionContext.domain c))
    with (val - fst (AxisPositionContext.domain c)
          + k * AxisPositionContext.w_domain (AxisPositionContext.widths c))
    by ring.
  apply Z_mod_plus_full.
Qed.

Lemma applyDomainVector_modulo_witness :
  PositionContext.applyDomainVector (-43)
    (PositionContext._x AppComponent.positionContext0)
  = Returns (0 + (-43 - 0) mod 20)
  /\
  PositionContext.applyDomainVector (-43 + 7 * 20)
    (PositionContext._x AppComponent.positionContext0)
  = PositionContext.applyDomainVector (-43)
      (PositionContext._x AppComponent.positionContext0).
Proof.
  apply (applyDomainVector_modulo
           (PositionContext._x AppComponent.positionContext0) (-43) 7).
  split; reflexivity.
Defined.

(** ** The constructor of [Position] *)

Lemma axis_nonempty_valid (dom rng : Interval) :
  axis_nonempty
    {| AxisPositionContext.domain := dom; AxisPositionContext.range := rng;
       AxisPositionContext.widths := PositionContext.getWidths dom rng |} = true ->
  valid_axis
    {| AxisPositionContext.domain := dom; AxisPositionContext.range := rng;
       AxisPositionContext.widths := PositionContext.getWidths dom rng |}.
Proof.
  unfold axis_nonempty, valid_axis. cbn. intros H. apply Z.ltb_lt in H. lia.
Qed.

Lemma applyDomainVector_empty (dom rng : Interval) (val : Z) :
  axis_nonempty
    {| AxisPositionContext.domain := dom; AxisPositionContext.range := rng;
       AxisPositionContext.widths := PositionContext.getWidths dom rng |} = false ->
  PositionContext.applyDomainVector val
    {| AxisPositionContext.domain := dom; AxisPositionContext.range := rng;
       AxisPositionContext.widths := PositionContext.getWidths dom rng |}
  = Diverges.
Proof.
  intros H.
  destruct (PositionContext.applyDomainVector val _) as [v| |] eqn:E;
    [|unfold PositionContext.applyDomainVector in E;
      destruct (PositionContext.while_below _ _ _);
      [destruct (PositionContext.while_above _ _ _)|]; discriminate
     |reflexivity].
  apply applyDomainVector_returns_valid in E; [|reflexivity].
  destruct E as [_ Hpos]. cbn in Hpos.
  unfold axis_nonempty in H. cbn in H. apply Z.ltb_ge in H. lia.
Qed.

(** X2. In a context built by [PositionContext]'s constructor,
    [new Position(x, y, context)] never throws.  When both domains are
    non-empty it returns a new object at the coordinates reduced modulo
    the widths; when a domain is empty (max <= min) it loops forever,
    whatever [x] and [y] are. *)
Theorem Position_new_outcome (dom rng : Interval2D.t) (x y : Z) (n : nat) :
  Position.new x y (PositionContext.new dom rng) n =
  if axis_nonempty (PositionContext._x (PositionContext.new dom rng))
     && axis_nonempty (PositionContext._y (PositionContext.new dom rng))
  then
    Returns
      ({| Position.oid := n;
          Position._x :=
            torus (PositionContext._x (PositionContext.new dom rng)) x;
          Position._y :=
            torus (PositionContext._y (PositionContext.new dom rng)) y;
          Position._context := PositionContext.new dom rng |}, S n)
  else Diverges.
Proof.
  unfold Position.new, bind, lift, fresh, ret, PositionContext.applyDomain.
  cbn [PositionContext.new PositionContext._x PositionContext._y].
  destruct (axis_nonempty
              {| AxisPositionContext.domain := Interval2D.x dom;
                 AxisPositionContext.range := Interval2D.x rng;
                 AxisPositionContext.widths :=
                   PositionContext.getWidths (Interval2D.x dom)
                     (Interval2D.x rng) |}) eqn:Ex; cbn [andb].
  - rewrite (applyDomainVector_torus _ x (axis_nonempty_valid _ _ Ex)).
    match goal with
    | |- context [axis_nonempty ?a] => destruct (axis_nonempty a) eqn:Ey
    end.
    + rewrite (applyDomainVector_torus _ y (axis_nonempty_valid _ _ Ey)).
      reflexivity.
    + rewrite (applyDomainVector_empty _ _ y Ey). reflexivity.
  - rewrite (applyDomainVector_empty _ _ x Ex). reflexivity.
Qed.

Lemma Position_new_torus (c : PositionContext.t) (x y : Z) (n : nat) :
  valid_context c ->
  Position.new x y c n =
    Returns ({| Position.oid := n;
                Position._x := torus (PositionContext._x c) x;
                Position._y := torus (PositionContext._y c) y;
                Position._context := c |}, S n).
Proof.
  intros [Hx Hy].
  unfold Position.new, bind, lift, fresh, ret, PositionContext.applyDomain.
  rewrite (applyDomainVector_torus _ x Hx), (applyDomainVector_torus _ y Hy).
  reflexivity.
Qed.

Lemma createModified_torus (p : Position.t) (dx dy : Z) (n : nat) :
  valid_context (Position._context p) ->
  Position.createModified p dx dy n =
    Returns ({| Position.oid := n;
                Position._x :=
                  torus (PositionContext._x (Position._context p))
                    (Position._x p + dx);
                Position._y :=
                  torus (PositionContext._y (Position._context p))
                    (Position._y p + dy);
                Position._context := Position._context p |}, S n).
Proof. intros Hc. unfold Position.createModified. apply Position_new_torus, Hc. Qed.

(** ** Steps on the torus *)

(** X3. In a grid with positive widths [createModified] always returns a
    position inside the domain, and steps add up: moving by [(dx, dy)] and
    then by [(dx', dy')] ends on the cell that moving by
    [(dx + dx', dy + dy')] ends on.  In particular a step and the opposite
    step bring a position of the domain back to its cell. *)
Theorem createModified_compose (p : Position.t) (dx dy dx' dy' : Z) (n : nat) :
  valid_context (Position._context p) ->
  exists q r s,
    Position.createModified p dx dy n = Returns (q, S n) /\
    Position.createModified q dx' dy' (S n) = Returns (r, S (S n)) /\
    Position.createModified p (dx + dx') (dy + dy') n = Returns (s, S n) /\
    in_domain q /\ in_domain r /\
    coords r = coords s /\
    (in_domain p -> dx + dx' = 0 -> dy + dy' = 0 -> coords r = coords p).
Proof.
  intros Hc. pose proof Hc as [Hx Hy].
  do 3 eexists.
  split; [apply createModified_torus, Hc|].
  split; [apply createModified_torus, Hc|].
  split; [apply createModified_torus, Hc|].
  cbn [Position._x Position._y Position._context].
  split; [split; cbn; apply torus_range; assumption|].
  split; [split; cbn; apply torus_range; assumption|].
  unfold coords. cbn [Position._x Position._y].
  split.
  - rewrite !torus_add. f_equal; f_equal; ring.
  - intros [Hpx Hpy] Hdx Hdy. rewrite !torus_add.
    replace (Position._x p + dx + dx') with (Position._x p) by lia.
    replace (Position._y p + dy + dy') with (Position._y p) by lia.
    rewrite !torus_inside by assumption. reflexivity.
Qed.

Lemma start0_in_domain : in_domain start0.
Proof. repeat split; cbn; lia. Qed.

Lemma createModified_compose_witness :
  exists q r s,
    Position.createModified start0 17 (-3) 1%nat = Returns (q, 2%nat) /\
    Position.createModified q (-17) 3 2%nat = Returns (r, 3%nat) /\
    Position.createModified start0 (17 + -17) (-3 + 3) 1%nat
      = Returns (s, 2%nat) /\
    in_domain q /\ in_domain r /\
    coords r = coords s /\
    (in_domain start0 -> 17 + -17 = 0 -> -3 + 3 = 0 -> coords r = coords start0).
Proof.
  apply (createModified_compose start0 17 (-3) (-17) 3 1%nat).
  repeat split.
Defined.

(** ** The linear index of a cell *)

Lemma getIndex_unfold (p : Position.t) :
  Position.getIndex p =
  (Position._x p
   - fst (AxisPositionContext.domain
            (PositionContext._x (Position._context p))))
  + AxisPositionContext.w_domain
      (AxisPositionContext.widths (PositionContext._x (Position._context p)))
    * (Position._y p
       - fst (AxisPositionContext.domain
                (PositionContext._y (Position._context p)))).
Proof. reflexivity. Qed.

(** X4. In a grid with positive widths the index of a position of the
    domain lies in [[0, widthX * widthY)], and two positions of the domain
    have the same index exactly if [equals] holds of them: the index is
    free of collisions. *)
Theorem getIndex_collision_free (p q : Position.t) :
  valid_context (Position._context p) ->
  Position._context q = Position._context p ->
  in_domain p -> in_domain q ->
  0 <= Position.getIndex p
  < AxisPositionContext.w_domain
      (AxisPositionContext.widths (PositionContext._x (Position._context p)))
    * AxisPositionContext.w_domain
        (AxisPositionContext.widths (PositionContext._y (Position._context p)))
  /\
  (Position.getIndex p = Position.getIndex q <->
   Position.equals p (Position.APosition q) = true).
Proof.
  intros [[Hwx Hpx] [Hwy Hpy]] Hctx [Hx Hy] [Hqx Hqy].
  cbv zeta in *. rewrite Hctx in Hqx, Hqy.
  rewrite !getIndex_unfold, Hctx. cbn [Position.equals].
  set (wx := AxisPositionContext.w_domain
               (AxisPositionContext.widths
                  (PositionContext._x (Position._context p)))) in *.
  set (wy := AxisPositionContext.w_domain
               (AxisPositionContext.widths
                  (PositionContext._y (Position._context p)))) in *.
  set (lx := fst (AxisPositionContext.domain
                    (PositionContext._x (Position._context p)))) in *.
  set (ly := fst (AxisPositionContext.domain
                    (PositionContext._y (Position._context p)))) in *.
  split; [nia|].
  rewrite andb_true_iff, !Z.eqb_eq. split.
  - intros E.
    assert (Ey : Position._y p - ly = Position._y q - ly).
    { rewrite (Z.div_unique_pos
                 ((Position._x p - lx) + wx * (Position._y p - ly)) wx
                 (Position._y p - ly) (Position._x p - lx)) by lia.
      rewrite E. symmetry. apply Z.div_unique_pos with (r := Position._x q - lx); lia. }
    split; [nia | lia].
  - intros [-> ->]. reflexivity.
Qed.

Lemma getIndex_collision_free_witness :
  0 <= Position.getIndex start0 < 20 * 20 /\
  (Position.getIndex start0 = Position.getIndex start0 <->
   Position.equals start0 (Position.APosition start0) = true).
Proof.
  apply (getIndex_collision_free start0 start0).
  - repeat split.
  - reflexivity.
  - repeat split; cbn; lia.
  - repeat split; cbn; lia.
Defined.

(** X5. [fromIndex] undoes [getIndex]: in a grid with positive widths,
    for a position of the domain, [Position.fromIndex(p.getIndex(),
    context)] returns a new position at the coordinates of [p]. *)
Theorem fromIndex_getIndex (p : Position.t) (n : nat) :
  valid_context (Position._context p) ->
  in_domain p ->
  exists m,
    Position.fromIndex (Position.getIndex p) (Position._context p) = Some m /\
    m n = Returns ({| Position.oid := n;
                      Position._x := Position._x p;
                      Position._y := Position._y p;
                      Position._context := Position._context p |}, S n).
Proof.
  intros Hc [Hx Hy]. pose proof Hc as [[Hwx Hpx] [Hwy Hpy]]. cbv zeta in *.
  unfold Position.fromIndex. cbv zeta.
  rewrite getIndex_unfold.
  set (wx := AxisPositionContext.w_domain
               (AxisPositionContext.widths
                  (PositionContext._x (Position._context p)))) in *.
  set (lx := fst (AxisPositionContext.domain
                    (PositionContext._x (Position._context p)))) in *.
  set (ly := fst (AxisPositionContext.domain
                    (PositionContext._y (Position._context p)))) in *.
  destruct (Z.eqb_spec wx 0) as [E0|_]; [lia|].
  eexists. split; [reflexivity|].
  rewrite (Position_new_torus _ _ _ n Hc).
  assert (Hd : (Position._x p - lx + wx * (Position._y p - ly)) / wx
               = Position._y p - ly)
    by (symmetry; apply Z.div_unique_pos with (r := Position._x p - lx); lia).
  assert (Hm : Z.rem (Position._x p - lx + wx * (Position._y p - ly)) wx
               = Position._x p - lx).
  { rewrite Z.rem_mod_nonneg by nia.
    symmetry. apply Z.mod_unique_pos with (q := Position._y p - ly); lia. }
  rewrite Hd, Hm.
  rewrite !torus_inside; try (apply Hc); fold lx ly; try lia.
  do 2 f_equal; f_equal; lia.
Qed.

Lemma fromIndex_getIndex_witness :
  exists m,
    Position.fromIndex (Position.getIndex start0) (Position._context start0)
      = Some m /\
    m 7%nat = Returns ({| Position.oid := 7;
                          Position._x := Position._x start0;
                          Position._y := Position._y start0;
                          Position._context := Position._context start0 |},
                       8%nat).
Proof.
  apply (fromIndex_getIndex start0 7%nat).
  - repeat split.
  - repeat split; cbn; lia.
Defined.

Lemma rem_mod_width (i w : Z) : 0 < w -> (Z.rem i w) mod w = i mod w.
Proof.
  intros Hw. rewrite Z.rem_eq by lia.
  replace (i - w * (i ÷ w)) with (i + (- (i ÷ w)) * w) by ring.
  apply Z_mod_plus_full.
Qed.

(** X6. [getIndex] undoes [fromIndex] up to the size of the grid: in a
    grid with positive widths, for every integer [i],
    [Position.fromIndex(i, context)] returns a position of the domain whose
    index is [i mod (widthX * widthY)]; it is [i] itself when
    [0 <= i < widthX * widthY]. *)
Theorem getIndex_fromIndex (c : PositionContext.t) (i : Z) (n : nat) :
  valid_context c ->
  exists m p,
    Position.fromIndex i c = Some m /\
    m n = Returns (p, S n) /\
    in_domain p /\
    Position.getIndex p
    = i mod (AxisPositionContext.w_domain
               (AxisPositionContext.widths (PositionContext._x c))
             * AxisPositionContext.w_domain
                 (AxisPositionContext.widths (PositionContext._y c))) /\
    (0 <= i < AxisPositionContext.w_domain
                (AxisPositionContext.widths (PositionContext._x c))
              * AxisPositionContext.w_domain
                  (AxisPositionContext.widths (PositionContext._y c)) ->
     Position.getIndex p = i).
Proof.
  intros Hc. pose proof Hc as [[Hwx Hpx] [Hwy Hpy]]. cbv zeta in *.
  unfold Position.fromIndex. cbv zeta.
  set (wx := AxisPositionContext.w_domain
               (AxisPositionContext.widths (PositionContext._x c))) in *.
  set (wy := AxisPositionContext.w_domain
               (AxisPositionContext.widths (PositionContext._y c))) in *.
  destruct (Z.eqb_spec wx 0) as [E0|_]; [lia|].
  do 2 eexists. split; [reflexivity|].
  split; [apply (Position_new_torus _ _ _ n Hc)|].
  split; [split; cbn; apply torus_range; apply Hc|].
  assert (E : Position.getIndex
                {| Position.oid := n;
                   Position._x :=
                     torus (PositionContext._x c)
                       (Z.rem i wx
                        + fst (AxisPositionContext.domain (PositionContext._x c)));
                   Position._y :=
                     torus (PositionContext._y c)
                       (i / wx
                        + fst (AxisPositionContext.domain (PositionContext._y c)));
                   Position._context := c |}
              = i mod (wx * wy)).
  { rewrite getIndex_unfold. cbn [Position._x Position._y Position._context].
    unfold torus. fold wx wy.
    rewrite !Z.add_simpl_r. rewrite rem_mod_width by exact Hpx.
    rewrite Z.rem_mul_r by lia. ring. }
  split; [exact E|].
  intros Hi. rewrite E. apply Z.mod_small. exact Hi.
Qed.

Lemma getIndex_fromIndex_witness :
  exists m p,
    Position.fromIndex (-1) AppComponent.positionContext0 = Some m /\
    m 0%nat = Returns (p, 1%nat) /\
    in_domain p /\
    Position.getIndex p = -1 mod (20 * 20) /\
    (0 <= -1 < 20 * 20 -> Position.getIndex p = -1).
Proof.
  apply (getIndex_fromIndex AppComponent.positionContext0 (-1) 0%nat).
  repeat split.
Defined.

(** ** What [createCheese] can do *)

Lemma is_free_occupied (snake : Snake.t) (pos : Z * Z) :
  is_free snake pos = false <-> In pos (occupied_cells snake).
Proof.
  split; [apply is_free_false|].
  intros Hin. unfold occupied_cells in Hin. apply nodup_In in Hin.
  apply in_map_iff in Hin as (s & E & Hs).
  destruct (is_free snake pos) eqn:F; [|reflexivity].
  exfalso. exact (is_free_true snake pos s F Hs E).
Qed.

Lemma possible_cells_nil (f : CheeseFactory.t) (snake : Snake.t) :
  CheeseFactory.possible_cells f snake = [] <->
  forall pos, In pos (grid_cells (CheeseFactory._positionContext f)) ->
              In pos (occupied_cells snake).
Proof.
  split.
  - intros E pos Hg. apply is_free_occupied.
    destruct (is_free snake pos) eqn:F; [|reflexivity].
    assert (Hin : In pos (CheeseFactory.possible_cells f snake))
      by (apply In_possible_cells; auto).
    rewrite E in Hin. destruct Hin.
  - intros H. destruct (CheeseFactory.possible_cells f snake) as [|pos l] eqn:E;
      [reflexivity|].
    assert (Hin : In pos (CheeseFactory.possible_cells f snake))
      by (rewrite E; left; reflexivity).
    apply In_possible_cells in Hin as [Hg Hf].
    apply H, is_free_occupied in Hg. congruence.
Qed.

Lemma generatePosition_nonempty (f : CheeseFactory.t) (snake : Snake.t) (r : Q)
  (n : nat) :
  (0 <= r)%Q -> (r < 1)%Q ->
  CheeseFactory.possible_cells f snake <> [] ->
  exists pos,
    In pos (CheeseFactory.possible_cells f snake) /\
    CheeseFactory.generatePosition f r snake n =
      Returns ({| Position.oid := n; Position._x := fst pos;
                  Position._y := snd pos;
                  Position._context := CheeseFactory._positionContext f |},
               S n).
Proof.
  intros H0 H1 Hne.
  unfold CheeseFactory.generatePosition. cbv zeta.
  set (possible := CheeseFactory.possible_cells f snake) in *.
  assert (Hlen : 0 < Z.of_nat (List.length possible))
    by (destruct possible; [contradiction | cbn; lia]).
  destruct (floor_random_range r _ H0 H1 Hlen) as [Hlo Hhi].
  unfold array_get.
  destruct (Z.ltb_spec (floor_random r (Z.of_nat (List.length possible))) 0);
    [lia|].
  destruct (nth_error possible
              (Z.to_nat (floor_random r (Z.of_nat (List.length possible)))))
    as [pos|] eqn:E.
  - exists pos. pose proof (nth_error_In _ _ E) as Hin. split; [exact Hin|].
    apply Position_new_inside. apply In_possible_cells in Hin. tauto.
  - apply nth_error_None in E. lia.
Qed.

Lemma generatePosition_nil (f : CheeseFactory.t) (snake : Snake.t) (r : Q)
  (n : nat) :
  CheeseFactory.possible_cells f snake = [] ->
  CheeseFactory.generatePosition f r snake n = Throws.
Proof.
  intros E. unfold CheeseFactory.generatePosition. cbv zeta. rewrite E.
  unfold array_get. destruct (_ <? 0); [reflexivity|].
  destruct (Z.to_nat _); reflexivity.
Qed.

(** A cheese that [createCheese] returns lies on a free cell of the grid,
    whatever the draws. *)
Lemma createCheese_returns_free (f : CheeseFactory.t) (snake : Snake.t)
  (r1 r2 : Q) (n n' : nat) (cheese : Cheese.t) :
  CheeseFactory.createCheese f r1 r2 snake n = Returns (cheese, n') ->
  In (coords (Cheese._position cheese)) (CheeseFactory.possible_cells f snake) /\
  Position.oid (Cheese._position cheese) = n /\
  Cheese._food cheese
  = floor_random r2 (snd (CheeseFactory._food f) - fst (CheeseFactory._food f))
    + fst (CheeseFactory._food f).
Proof.
  unfold CheeseFactory.createCheese, CheeseFactory.generatePosition, bind, ret.
  cbv zeta. unfold array_get. destruct (_ <? 0); [discriminate|].
  destruct (nth_error _ _) as [pos|] eqn:E; [|discriminate].
  apply nth_error_In in E. pose proof E as Hp.
  apply In_possible_cells in E as [Hg _].
  rewrite (Position_new_inside _ pos n Hg). intros [= <- <-].
  cbn. destruct pos. auto.
Qed.

(** X7. The food value of a cheese that [createCheese] returns lies in
    the half-open range of the factory, [[min, max)], for every draw. *)
Theorem createCheese_food_range (f : CheeseFactory.t) (snake : Snake.t)
  (r1 r2 : Q) (n n' : nat) (cheese : Cheese.t) :
  (0 <= r2)%Q -> (r2 < 1)%Q ->
  fst (CheeseFactory._food f) < snd (CheeseFactory._food f) ->
  CheeseFactory.createCheese f r1 r2 snake n = Returns (cheese, n') ->
  fst (CheeseFactory._food f) <= Cheese._food cheese
  < snd (CheeseFactory._food f).
Proof.
  intros H0 H1 Hf E.
  destruct (createCheese_returns_free _ _ _ _ _ _ _ E) as (_ & _ & ->).
  pose proof (floor_random_range r2
                (snd (CheeseFactory._food f) - fst (CheeseFactory._food f))
                H0 H1).
  lia.
Qed.

Lemma createCheese_food_range_witness :
  1 <= Cheese._food (AppComponent._cheese game0) < 15.
Proof.
  apply (createCheese_food_range AppComponent.cheeseFactory0 snake0
           (1 # 2) (1 # 3) 1%nat 2%nat (AppComponent._cheese game0)).
  - discriminate.
  - reflexivity.
  - reflexivity.
  - vm_compute. reflexivity.
Defined.

(** X8. For every draw, [createCheese] never loops; it throws exactly
    when every cell of the grid is under the snake (in particular when the
    grid has no cell); and a cheese it returns is a new object on a cell of
    the grid that is under no segment. *)
Theorem createCheese_throws_iff_full (f : CheeseFactory.t) (snake : Snake.t)
  (r1 r2 : Q) (n : nat) :
  (0 <= r1)%Q -> (r1 < 1)%Q ->
  CheeseFactory.createCheese f r1 r2 snake n <> Diverges /\
  (CheeseFactory.createCheese f r1 r2 snake n = Throws <->
   forall pos, In pos (grid_cells (CheeseFactory._positionContext f)) ->
               In pos (occupied_cells snake)) /\
  (forall cheese n',
     CheeseFactory.createCheese f r1 r2 snake n = Returns (cheese, n') ->
     n' = S n /\
     Position.oid (Cheese._position cheese) = n /\
     In (coords (Cheese._position cheese))
       (grid_cells (CheeseFactory._positionContext f)) /\
     ~ In (coords (Cheese._position cheese)) (occupied_cells snake)).
Proof.
  intros H0 H1.
  assert (Hcases :
            (CheeseFactory.possible_cells f snake = [] /\
             CheeseFactory.createCheese f r1 r2 snake n = Throws) \/
            (CheeseFactory.possible_cells f snake <> [] /\
             exists cheese,
               CheeseFactory.createCheese f r1 r2 snake n
               = Returns (cheese, S n))).
  { destruct (CheeseFactory.possible_cells f snake) as [|p l] eqn:E.
    - left. split; [reflexivity|].
      unfold CheeseFactory.createCheese, bind.
      rewrite (generatePosition_nil f snake r1 n E). reflexivity.
    - right. split; [discriminate|].
      destruct (generatePosition_nonempty f snake r1 n H0 H1) as (pos & _ & G);
        [rewrite E; discriminate|].
      unfold CheeseFactory.createCheese, bind, ret. rewrite G. eauto. }
  split; [|split].
  - destruct Hcases as [[_ ->]|[_ [cheese ->]]]; discriminate.
  - rewrite <- possible_cells_nil.
    destruct Hcases as [[E ->]|[Hne [cheese ->]]]; split; trivial;
      try discriminate. intros E. contradiction.
  - intros cheese n' E. pose proof (createCheese_counter _ _ _ _ _ _ _ E) as ->.
    destruct (createCheese_returns_free _ _ _ _ _ _ _ E) as (Hin & Ho & _).
    apply In_possible_cells in Hin as [Hg Hf].
    repeat split; trivial.
    intros Hocc. apply is_free_occupied in Hocc. congruence.
Qed.

Lemma createCheese_throws_iff_full_witness :
  CheeseFactory.createCheese AppComponent.cheeseFactory0 (1 # 2) (1 # 3)
    full_board_snake 400%nat <> Diverges /\
  (CheeseFactory.createCheese AppComponent.cheeseFactory0 (1 # 2) (1 # 3)
     full_board_snake 400%nat = Throws <->
   forall pos, In pos (grid_cells AppComponent.positionContext0) ->
               In pos (occupied_cells full_board_snake)) /\
  (forall cheese n',
     CheeseFactory.createCheese AppComponent.cheeseFactory0 (1 # 2) (1 # 3)
       full_board_snake 400%nat = Returns (cheese, n') ->
     n' = 401%nat /\
     Position.oid (Cheese._position cheese) = 400%nat /\
     In (coords (Cheese._position cheese))
       (grid_cells AppComponent.positionContext0) /\
     ~ In (coords (Cheese._position cheese)) (occupied_cells full_board_snake)).
Proof.
  apply (createCheese_throws_iff_full AppComponent.cheeseFactory0
           full_board_snake (1 # 2) (1 # 3) 400%nat).
  - discriminate.
  - reflexivity.
Defined.

(** ** Invariants of a run *)

(** A property that every delivery keeps holds along a run; and every
    step of a run is a delivery from a state [app_ok]. *)
Lemma run_preserves (P : AppComponent.t -> Prop) :
  (forall e app app' n n',
     app_ok app n -> P app -> deliver e app n = Returns (app', n') -> P app') ->
  forall (events : list Event) (app0 : AppComponent.t) (n0 : nat)
         (history : list AppComponent.t) (n' : nat),
  app_ok app0 n0 -> P app0 ->
  run events app0 n0 = Returns (history, n') ->
  forall k before after,
    nth_error (app0 :: history) k = Some before ->
    nth_error history k = Some after ->
    exists e nb na,
      nth_error events k = Some e /\
      app_ok before nb /\ P before /\
      deliver e before nb = Returns (after, na) /\
      app_ok after na /\ P after.
Proof.
  intros Hstep events.
  induction events as [|e events IH]; intros app0 n0 history n' Hok HP R k
    before after Hb Ha.
  - cbn in R. unfold ret in R. injection R as <- <-. destruct k; discriminate.
  - cbn [run] in R. unfold bind in R.
    destruct (deliver e app0 n0) as [[app1 n1]| |] eqn:D; try discriminate.
    destruct (run events app1 n1) as [[rest n2]| |] eqn:R1; try discriminate.
    unfold ret in R. injection R as <- <-.
    destruct (deliver_ok e app0 app1 n0 n1 Hok D) as (Hok1 & _).
    pose proof (Hstep e app0 app1 n0 n1 Hok HP D) as HP1.
    destruct k as [|k].
    + cbn in Hb, Ha. injection Hb as <-. injection Ha as <-.
      exists e, n0, n1. cbn. auto 10.
    + cbn [nth_error] in Hb, Ha |- *.
      exact (IH app1 n1 rest n2 Hok1 HP1 R1 k before after Hb Ha).
Qed.

Lemma nth_error_before {A} (a : A) (l : list A) (k : nat) (x : A) :
  nth_error l k = Some x -> exists b, nth_error (a :: l) k = Some b.
Proof.
  intros H. destruct (nth_error (a :: l) k) as [b|] eqn:E; [eauto|].
  apply nth_error_None in E.
  assert (nth_error l k = None) by (apply nth_error_None; cbn in E; lia).
  congruence.
Qed.

(** ** The cheese is never under the snake *)


Lemma is_free_segments (s s' : Snake.t) (pos : Z * Z) :
  Snake._segments s' = Snake._segments s -> is_free s' pos = is_free s pos.
Proof. unfold is_free. intros ->. reflexivity. Qed.

(** The segments after a tick: the new head, then old segments. *)
Lemma tick_segments (s s1 : Snake.t) (n n1 : nat) :
  can_move s ->
  Snake.tick s n = Returns (s1, n1) ->
  exists p,
    Snake.head s1 = Some p /\
    Snake._direction s1 = next_heading s /\
    Snake._nextDirection s1 = None /\
    forall q, In q (Snake._segments s1) ->
              q = p \/ In q (Snake._segments s).
Proof.
  intros (h & Hh & Hc) T.
  destruct (tick_returns s h n Hh Hc) as (p & _ & _ & _ & T').
  rewrite T' in T. injection T as <- <-.
  cbn [Snake._direction Snake._nextDirection Snake._segments Snake.head].
  exists p. unfold Snake.head in Hh.
  destruct (Snake._segments s) as [|h' rest] eqn:Es; [discriminate|].
  split; [destruct (Snake._food s >? 0); reflexivity|].
  split; [reflexivity|]. split; [reflexivity|].
  intros q Hq. destruct (Snake._food s >? 0).
  - destruct Hq; auto.
  - destruct Hq as [<-|Hq]; [auto|]. apply removelast_In in Hq. auto.
Qed.





(** ** A timer tick goes through unless the board is full *)

Lemma occupied_cells_segments (s s' : Snake.t) :
  Snake._segments s' = Snake._segments s ->
  occupied_cells s' = occupied_cells s.
Proof. unfold occupied_cells. intros ->. reflexivity. Qed.

(** X10. A timer tick of the component never loops, and the move of the
    snake in it always returns.  The tick as a whole returns, except in one
    case, where it throws: the snake has just moved its head onto the
    cheese and now covers every cell of the grid, so that there is no room
    for the next cheese. *)
Theorem AppComponent_tick_progress (app : AppComponent.t) (r1 r2 : Q) (n : nat) :
  app_ok app n ->
  (0 <= r1)%Q -> (r1 < 1)%Q ->
  exists s1,
    Snake.tick (AppComponent._snake app) n = Returns (s1, S n) /\
    ((exists app' n', AppComponent.tick app r1 r2 n = Returns (app', n')) \/
     (AppComponent.tick app r1 r2 n = Throws /\
      Position.equals (Cheese._position (AppComponent._cheese app))
        (Position.of_option (Snake.head s1)) = true /\
      forall pos,
        In pos (grid_cells
                  (CheeseFactory._positionContext
                     (AppComponent._cheeseFactory app))) ->
        In pos (occupied_cells s1))).
Proof.
  intros (Hm & _) H0 H1.
  destruct (tick_summary (AppComponent._snake app) n Hm) as (s1 & T & _).
  exists s1. split; [exact T|].
  unfold AppComponent.tick, bind. rewrite T. cbv zeta.
  set (s2 := if AppComponent.self_collision s1 then Snake.kill s1 else s1).
  assert (Hs2 : Snake._segments s2 = Snake._segments s1)
    by (unfold s2; destruct (AppComponent.self_collision s1); reflexivity).
  assert (Hh2 : Snake.head s2 = Snake.head s1)
    by (unfold Snake.head; rewrite Hs2; reflexivity).
  rewrite Hh2.
  destruct (Position.equals _ _) eqn:Eq; [|left; unfold ret; eauto].
  set (s3 := Snake.eat s2 (AppComponent._cheese app)).
  assert (Hs3 : occupied_cells s3 = occupied_cells s1)
    by (apply occupied_cells_segments; exact Hs2).
  destruct (CheeseFactory.createCheese (AppComponent._cheeseFactory app)
              r1 r2 s3 (S n)) as [[cheese n2]| |] eqn:C.
  - left. unfold ret. eauto.
  - right. split; [reflexivity|]. split; [reflexivity|].
    rewrite <- Hs3. apply possible_cells_nil.
    destruct (CheeseFactory.possible_cells (AppComponent._cheeseFactory app) s3)
      as [|p l] eqn:E; [reflexivity|].
    destruct (generatePosition_nonempty (AppComponent._cheeseFactory app) s3
                r1 (S n) H0 H1) as (pos & _ & G); [rewrite E; discriminate|].
    unfold CheeseFactory.createCheese, bind in C. rewrite G in C. discriminate.
  - exfalso. unfold CheeseFactory.createCheese, bind in C.
    destruct (CheeseFactory.possible_cells (AppComponent._cheeseFactory app) s3)
      as [|p l] eqn:E.
    + rewrite (generatePosition_nil _ _ r1 (S n) E) in C. discriminate.
    + destruct (generatePosition_nonempty (AppComponent._cheeseFactory app) s3
                  r1 (S n) H0 H1) as (pos & _ & G); [rewrite E; discriminate|].
      rewrite G in C. discriminate.
Qed.

Lemma AppComponent_tick_progress_witness :
  exists s1,
    Snake.tick (AppComponent._snake game0) 2%nat = Returns (s1, 3%nat) /\
    ((exists app' n',
        AppComponent.tick game0 (1 # 2) (1 # 3) 2%nat = Returns (app', n')) \/
     (AppComponent.tick game0 (1 # 2) (1 # 3) 2%nat = Throws /\
      Position.equals (Cheese._position (AppComponent._cheese game0))
        (Position.of_option (Snake.head s1)) = true /\
      forall pos,
        In pos (grid_cells
                  (CheeseFactory._positionContext
                     (AppComponent._cheeseFactory game0))) ->
        In pos (occupied_cells s1))).
Proof.
  apply (AppComponent_tick_progress game0 (1 # 2) (1 # 3) 2%nat).
  - exact game0_ok.
  - discriminate.
  - reflexivity.
Defined.

(** ** The snake never reverses *)

Lemma isTurn_directions (b a : DirectionName) :
  Direction.isTurn (AppComponent._directions b) (AppComponent._directions a)
  = perpendicular b a.
Proof. destruct a, b; reflexivity. Qed.

Lemma getNewDirection_some (key : String.string) (d : Direction.t) :
  AppComponent.getNewDirection key = Some d ->
  exists b, d = AppComponent._directions b.
Proof.
  unfold AppComponent.getNewDirection.
  repeat match goal with
         | |- context [String.eqb key ?k] =>
             destruct (String.eqb key k); [intros [= <-]|]
         end; try discriminate.
  - exists left. reflexivity.
  - exists right. reflexivity.
  - exists up. reflexivity.
  - exists down. reflexivity.
Qed.

Lemma perpendicular_not_opposite (b a : DirectionName) :
  b = a \/ perpendicular b a = true -> b <> opposite a.
Proof. destruct a, b; cbn; intros [H|H] E; congruence. Qed.

(** Every delivery keeps [heading_ok], and leaves the committed direction
    as it was or a quarter turn away. *)
Lemma deliver_heading (e : Event) (app app' : AppComponent.t) (n n' : nat) :
  app_ok app n -> heading_ok app ->
  deliver e app n = Returns (app', n') ->
  heading_ok app' /\
  exists a b,
    Snake._direction (AppComponent._snake app) = AppComponent._directions a /\
    Snake._direction (AppComponent._snake app') = AppComponent._directions b /\
    (b = a \/ perpendicular b a = true).
Proof.
  intros (Hm & _) Hh. pose proof Hh as (a & Ha & Hq). unfold deliver.
  destruct (AppComponent.gameOver app);
    [intros [= <- <-]; split; [exact Hh | exists a, a; auto]|].
  destruct e as [key|r1 r2].
  - unfold ret. intros [= <- <-]. unfold AppComponent.handleUserInput.
    destruct (AppComponent.getNewDirection key) as [d|] eqn:G;
      [|split; [exact Hh | exists a, a; auto]].
    destruct (getNewDirection_some key d G) as (b & ->).
    rewrite Ha, isTurn_directions.
    destruct (perpendicular b a) eqn:P;
      [|split; [exact Hh | exists a, a; auto]].
    split; [|exists a, a; cbn; auto].
    exists a. cbn. split; [exact Ha|]. exists b. auto.
  - unfold AppComponent.tick, bind.
    destruct (Snake.tick (AppComponent._snake app) n) as [[s1 n1]| |] eqn:T;
      try discriminate.
    destruct (tick_segments _ _ _ _ Hm T) as (p & _ & Hd & Hn & _).
    cbv zeta.
    set (s2 := if AppComponent.self_collision s1 then Snake.kill s1 else s1).
    assert (Hs2 : Snake._direction s2 = next_heading (AppComponent._snake app) /\
                  Snake._nextDirection s2 = None)
      by (unfold s2; destruct (AppComponent.self_collision s1); auto).
    destruct Hs2 as [Hd2 Hn2].
    assert (Hnext : exists b,
               next_heading (AppComponent._snake app)
               = AppComponent._directions b /\
               (b = a \/ perpendicular b a = true)).
    { unfold next_heading.
      destruct (Snake._nextDirection (AppComponent._snake app)) as [d|].
      - destruct Hq as (b & -> & P). eauto.
      - exists a. auto. }
    destruct Hnext as (b & Hb & Hab).
    assert (Hfinal : forall s3 : Snake.t,
               Snake._direction s3 = Snake._direction s2 ->
               Snake._nextDirection s3 = Snake._nextDirection s2 ->
               (exists a', Snake._direction s3 = AppComponent._directions a' /\
                  match Snake._nextDirection s3 with
                  | Some d => exists b', d = AppComponent._directions b' /\
                                         perpendicular b' a' = true
                  | None => True
                  end) /\
               exists a0 b0,
                 Snake._direction (AppComponent._snake app)
                 = AppComponent._directions a0 /\
                 Snake._direction s3 = AppComponent._directions b0 /\
                 (b0 = a0 \/ perpendicular b0 a0 = true)).
    { intros s3 E1 E2. rewrite E1, E2, Hd2, Hn2, Hb. split.
      - exists b. auto.
      - exists a, b. auto. }
    destruct (Position.equals _ _).
    + destruct (CheeseFactory.createCheese _ _ _ _ _) as [[cheese n2]| |];
        try discriminate.
      unfold ret. intros [= <- <-]. unfold heading_ok.
      cbn [AppComponent._snake]. apply Hfinal; reflexivity.
    + unfold ret. intros [= <- <-]. unfold heading_ok.
      cbn [AppComponent._snake]. apply Hfinal; reflexivity.
Qed.

Lemma deliver_heading_ok (e : Event) (app app' : AppComponent.t) (n n' : nat) :
  app_ok app n -> heading_ok app ->
  deliver e app n = Returns (app', n') -> heading_ok app'.
Proof. intros Hok Hh D. exact (proj1 (deliver_heading e app app' n n' Hok Hh D)). Qed.

Lemma game0_heading_ok : heading_ok game0.
Proof. exists right. split; [reflexivity | exact I]. Qed.

(** X11. The keyboard cannot reverse the snake.  Along every run of key
    presses and timer ticks from a state in which the committed direction
    is one of the four and a queued one is a quarter turn from it (as
    after [initGame]), the committed direction after an event is the one
    before it or perpendicular to it, never its opposite, however many
    keys are pressed between two ticks. *)
Theorem snake_never_reverses (events : list Event) (app0 : AppComponent.t)
  (n0 : nat) (history : list AppComponent.t) (n' : nat) (k : nat)
  (before after : AppComponent.t) :
  app_ok app0 n0 ->
  heading_ok app0 ->
  run events app0 n0 = Returns (history, n') ->
  nth_error (app0 :: history) k = Some before ->
  nth_error history k = Some after ->
  exists a b,
    Snake._direction (AppComponent._snake before) = AppComponent._directions a /\
    Snake._direction (AppComponent._snake after) = AppComponent._directions b /\
    b <> opposite a /\
    (b = a \/ perpendicular b a = true).
Proof.
  intros Hok Hh R Hb Ha.
  destruct (run_preserves heading_ok deliver_heading_ok events app0 n0
              history n' Hok Hh R k before after Hb Ha)
    as (e & nb & na & _ & Hokb & Hhb & D & _).
  destruct (deliver_heading e before after nb na Hokb Hhb D)
    as (_ & a & b & Ea & Eb & Hab).
  exists a, b. repeat split; trivial. apply perpendicular_not_opposite, Hab.
Qed.

Lemma snake_never_reverses_witness :
  exists history n' before after,
    run tight_loop game0 2%nat = Returns (history, n') /\
    nth_error (game0 :: history) 2 = Some before /\
    nth_error history 2 = Some after /\
    Snake._direction (AppComponent._snake before) = AppComponent._directions right /\
    Snake._direction (AppComponent._snake after) = AppComponent._directions down /\
    exists a b,
      Snake._direction (AppComponent._snake before) = AppComponent._directions a /\
      Snake._direction (AppComponent._snake after) = AppComponent._directions b /\
      b <> opposite a /\
      (b = a \/ perpendicular b a = true).
Proof.
  assert (R : exists history n',
            run tight_loop game0 2%nat = Returns (history, n') /\
            exists before after,
              nth_error (game0 :: history) 2 = Some before /\
              nth_error history 2 = Some after /\
              Snake._direction (AppComponent._snake before)
              = AppComponent._directions right /\
              Snake._direction (AppComponent._snake after)
              = AppComponent._directions down).
  { eexists. eexists. split; [vm_compute; reflexivity|].
    eexists. eexists. repeat split. }
  destruct R as (history & n' & R & before & after & Hb & Ha & Db & Da).
  exists history, n', before, after. repeat split; trivial.
  exact (snake_never_reverses tight_loop game0 2%nat history n' 2 before after
           game0_ok game0_heading_ok R Hb Ha).
Defined.

(** ** Restart *)



(** ** Length and pending food *)

Lemma call_conservation (c : SnakeCall) (s : Snake.t) (n : nat) :
  can_move s -> 0 <= Snake._food s -> nonnegative_food c ->
  exists s' n',
    call c s n = Returns (s', n') /\ can_move s' /\ 0 <= Snake._food s' /\
    Z.of_nat (List.length (Snake._segments s')) + Snake._food s'
    = Z.of_nat (List.length (Snake._segments s)) + Snake._food s + eaten [c].
Proof.
  intros Hm Hf Hc. destruct c as [|cheese| |d]; cbn [call eaten]; unfold ret.
  - destruct (tick_summary s n Hm) as (s' & T & Hm' & _ & Hpos & Hzero).
    exists s', (S n). split; [exact T|]. split; [exact Hm'|].
    destruct (Z.lt_ge_cases 0 (Snake._food s)) as [H|H];
      [apply Hpos in H | apply Hzero in H]; lia.
  - exists (Snake.eat s cheese), n. cbn in *. repeat split; trivial; lia.
  - exists (Snake.kill s), n. cbn. repeat split; trivial; lia.
  - exists (Snake.set_direction s d), n. cbn. repeat split; trivial; lia.
Qed.

Lemma calls_conservation_move (cs : list SnakeCall) :
  forall (s : Snake.t) (n : nat),
  can_move s -> 0 <= Snake._food s -> Forall nonnegative_food cs ->
  exists s' n',
    calls cs s n = Returns (s', n') /\ can_move s' /\ 0 <= Snake._food s' /\
    Z.of_nat (List.length (Snake._segments s')) + Snake._food s'
    = Z.of_nat (List.length (Snake._segments s)) + Snake._food s + eaten cs.
Proof.
  induction cs as [|c cs IH]; intros s n Hm Hf Hcs.
  - exists s, n. cbn. unfold ret. repeat split; trivial; lia.
  - apply Forall_cons_iff in Hcs as [Hc Hcs].
    destruct (call_conservation c s n Hm Hf Hc)
      as (s1 & n1 & E1 & Hm1 & Hf1 & L1).
    destruct (IH s1 n1 Hm1 Hf1 Hcs) as (s' & n' & E & Hm' & Hf' & L).
    exists s', n'. cbn [calls]. unfold bind. rewrite E1.
    split; [exact E|]. split; [exact Hm'|]. split; [exact Hf'|].
    rewrite L, L1. destruct c; cbn [eaten]; lia.
Qed.

(** X13. Nothing eaten is lost.  For a snake that can move and has no
    negative pending food, along every sequence of [tick], [eat], [kill]
    and direction-setter calls in which no cheese has a negative food
    value, every call returns, and the number of segments plus the pending
    food is what it was at the start plus the food of the cheeses eaten:
    a tick turns one unit of pending food into one segment, and nothing
    else changes the sum. *)
Theorem calls_conservation (cs : list SnakeCall) (s : Snake.t) (n : nat) :
  can_move s -> 0 <= Snake._food s -> Forall nonnegative_food cs ->
  exists s' n',
    calls cs s n = Returns (s', n') /\
    0 <= Snake._food s' /\
    Z.of_nat (List.length (Snake._segments s')) + Snake._food s'
    = Z.of_nat (List.length (Snake._segments s)) + Snake._food s + eaten cs.
Proof.
  intros Hm Hf Hcs.
  destruct (calls_conservation_move cs s n Hm Hf Hcs)
    as (s' & n' & E & _ & Hf' & L).
  exists s', n'. auto.
Qed.

Lemma calls_conservation_witness :
  exists s' n',
    calls [CallTick; CallEat (AppComponent._cheese game0); CallTick; CallKill;
           CallTick; CallSetDirection (AppComponent._directions up); CallTick]
      snake0 1%nat = Returns (s', n') /\
    0 <= Snake._food s' /\
    Z.of_nat (List.length (Snake._segments s')) + Snake._food s'
    = Z.of_nat (List.length (Snake._segments snake0)) + Snake._food snake0
      + eaten [CallTick; CallEat (AppComponent._cheese game0); CallTick;
               CallKill; CallTick;
               CallSetDirection (AppComponent._directions up); CallTick].
Proof.
  apply (calls_conservation
           [CallTick; CallEat (AppComponent._cheese game0); CallTick; CallKill;
            CallTick; CallSetDirection (AppComponent._directions up); CallTick]
           snake0 1%nat).
  - exact snake0_can_move.
  - cbn. lia.
  - repeat constructor; cbn; lia.
Defined.

(** ** The snake stays on the grid *)

Lemma tick_newhead (s s1 : Snake.t) (h : Position.t) (n n1 : nat) :
  Snake.head s = Some h ->
  valid_context (Position._context h) ->
  Snake.tick s n = Returns (s1, n1) ->
  exists p,
    Position.createModified h (Direction._dx (next_heading s))
      (Direction._dy (next_heading s)) n = Returns (p, S n) /\
    Snake.head s1 = Some p /\
    forall q, In q (Snake._segments s1) -> q = p \/ In q (Snake._segments s).
Proof.
  intros Hh Hc T.
  destruct (tick_returns s h n Hh Hc) as (p & A & _ & _ & T').
  rewrite T' in T. injection T as <- <-.
  cbn [Snake._segments Snake.head].
  exists p. split; [exact A|]. unfold Snake.head in Hh.
  destruct (Snake._segments s) as [|h' rest] eqn:Es; [discriminate|].
  split; [destruct (Snake._food s >? 0); reflexivity|].
  intros q Hq. destruct (Snake._food s >? 0).
  - destruct Hq; auto.
  - destruct Hq as [<-|Hq]; [auto|]. apply removelast_In in Hq. auto.
Qed.

(** Every segment is in the domain of the context [c]. *)
Lemma call_on_grid (c : PositionContext.t) (k : SnakeCall) (s : Snake.t)
  (n : nat) :
  valid_context c -> Snake._segments s <> [] ->
  Forall (fun p => in_domain p /\ Position._context p = c) (Snake._segments s) ->
  exists s' n',
    call k s n = Returns (s', n') /\ Snake._segments s' <> [] /\
    Forall (fun p => in_domain p /\ Position._context p = c) (Snake._segments s').
Proof.
  intros Hc Hne Hall.
  destruct k as [|cheese| |d]; cbn [call]; unfold ret;
    try (eexists; eexists; split; [reflexivity|]; split; assumption).
  destruct (Snake._segments s) as [|h rest] eqn:Es; [contradiction|].
  assert (Hh : Snake.head s = Some h) by (unfold Snake.head; rewrite Es; reflexivity).
  pose proof (Forall_inv Hall) as [_ Hctx].
  assert (Hvh : valid_context (Position._context h)) by (rewrite Hctx; exact Hc).
  destruct (tick_summary s n (ex_intro _ h (conj Hh Hvh))) as (s' & T & _).
  destruct (tick_newhead s s' h n (S n) Hh Hvh T) as (p & A & Hp & Hsegs).
  exists s', (S n). split; [exact T|].
  split; [unfold Snake.head in Hp; destruct (Snake._segments s'); discriminate|].
  rewrite (createModified_torus h _ _ n Hvh) in A. injection A as <-.
  apply Forall_forall. intros q Hq. destruct (Hsegs q Hq) as [->|Hold].
  - split; [|exact Hctx]. split; cbn; apply torus_range; apply Hvh.
  - rewrite Es in Hold. exact (proj1 (Forall_forall _ _) Hall q Hold).
Qed.

Lemma calls_on_grid (c : PositionContext.t) (cs : list SnakeCall) :
  forall (s : Snake.t) (n : nat),
  valid_context c -> Snake._segments s <> [] ->
  Forall (fun p => in_domain p /\ Position._context p = c) (Snake._segments s) ->
  exists s' n',
    calls cs s n = Returns (s', n') /\
    Forall (fun p => in_domain p /\ Position._context p = c) (Snake._segments s').
Proof.
  induction cs as [|k cs IH]; intros s n Hc Hne Hall.
  - exists s, n. split; [reflexivity | exact Hall].
  - destruct (call_on_grid c k s n Hc Hne Hall) as (s1 & n1 & E1 & Hne1 & Hall1).
    destruct (IH s1 n1 Hc Hne1 Hall1) as (s' & n' & E & Hall').
    exists s', n'. cbn [calls]. unfold bind. rewrite E1. auto.
Qed.

(** X14. The snake never leaves the grid.  For a snake constructed from
    a start position (whose constructor returned, in a context built by
    [PositionContext]'s constructor), after every sequence of [tick],
    [eat], [kill] and direction-setter calls every segment has its
    coordinates inside the domain, [min <= x < max] on both axes, and
    carries the context of the start position. *)
Theorem snake_stays_on_grid (dom rng : Interval2D.t) (x y : Z) (n0 n : nat)
  (start : Position.t) (initialFood : Z) (initialDirection : Direction.t)
  (cs : list SnakeCall) :
  Position.new x y (PositionContext.new dom rng) n0 = Returns (start, n) ->
  exists s' n',
    calls cs (Snake.new start initialFood initialDirection) n
      = Returns (s', n') /\
    forall p, In p (Snake._segments s') ->
      Position._context p = PositionContext.new dom rng /\
      fst (Interval2D.x dom) <= Position._x p < snd (Interval2D.x dom) /\
      fst (Interval2D.y dom) <= Position._y p < snd (Interval2D.y dom).
Proof.
  intros E. destruct (Position_new_inv _ _ _ _ _ _ _ E) as [Hv Hc].
  assert (Hin : in_domain start).
  { rewrite (Position_new_torus _ x y n0 Hv) in E. injection E as <- _.
    split; cbn [Position._x Position._y Position._context];
      apply torus_range; apply Hv. }
  destruct (calls_on_grid (PositionContext.new dom rng) cs
              (Snake.new start initialFood initialDirection) n Hv)
    as (s' & n' & R & Hall); [discriminate| |].
  - constructor; [|constructor]. split; [exact Hin | exact Hc].
  - exists s', n'. split; [exact R|]. intros p Hp.
    destruct (proj1 (Forall_forall _ _) Hall p Hp) as [[Hx Hy] Hctx].
    split; [exact Hctx|]. rewrite Hctx in Hx, Hy. cbn in Hx, Hy. auto.
Qed.

Lemma snake_stays_on_grid_witness :
  exists s' n',
    calls [CallTick; CallSetDirection (AppComponent._directions up);
           CallTick; CallTick; CallTick; CallTick; CallTick; CallTick]
      snake0 1%nat = Returns (s', n') /\
    forall p, In p (Snake._segments s') ->
      Position._context p = AppComponent.positionContext0 /\
      0 <= Position._x p < 20 /\ 0 <= Position._y p < 20.
Proof.
  apply (snake_stays_on_grid
           {| Interval2D.x := (0, 20); Interval2D.y := (0, 20) |}
           {| Interval2D.x := (0, 640); Interval2D.y := (0, 480) |}
           5 5 0%nat 1%nat start0 4 (AppComponent._directions right)).
  reflexivity.
Defined.

(** ** Key presses *)

(** X15. The last accepted key press before a tick wins, and a press
    that is not accepted changes nothing.  A press is accepted when the key
    is one of the four arrows and its direction is a turn from the
    committed direction; the queued direction plays no part.  So two
    presses in a row leave what the second alone would have left if the
    second is accepted, and what the first left otherwise; an accepted
    press changes the queued direction and nothing else. *)
Theorem handleUserInput_last_wins (app : AppComponent.t)
  (key1 key2 : String.string) :
  AppComponent.handleUserInput (AppComponent.handleUserInput app key1) key2
  = (if accepted app key2 then AppComponent.handleUserInput app key2
     else AppComponent.handleUserInput app key1) /\
  (if accepted app key1
   then exists b,
          AppComponent.getNewDirection key1 = Some (AppComponent._directions b) /\
          AppComponent.handleUserInput app key1
          = AppComponent.with_snake app
              (Snake.set_direction (AppComponent._snake app)
                 (AppComponent._directions b))
   else AppComponent.handleUserInput app key1 = app).
Proof.
  unfold accepted, AppComponent.handleUserInput. split.
  - destruct (AppComponent.getNewDirection key1) as [d1|];
      [destruct (Direction.isTurn d1 _)|];
      (destruct (AppComponent.getNewDirection key2) as [d2|];
       [cbn; destruct (Direction.isTurn d2 _)|]); reflexivity.
  - destruct (AppComponent.getNewDirection key1) as [d1|] eqn:G; [|reflexivity].
    destruct (Direction.isTurn d1 _); [|reflexivity].
    destruct (getNewDirection_some key1 d1 G) as (b & ->). eauto.
Qed.

(** ** An alive snake does not overlap itself *)

Lemma NoDup_removelast {A} (l : list A) : NoDup l -> NoDup (removelast l).
Proof.
  intros H. rewrite <- (map_id l) in H.
  apply (NoDup_map_removelast (fun x => x)) in H. rewrite map_id in H. exact H.
Qed.

Lemma map_removelast {A B} (f : A -> B) (l : list A) :
  map f (removelast l) = removelast (map f l).
Proof.
  induction l as [|a l IH]; [reflexivity|].
  destruct l as [|b l]; [reflexivity|].
  rewrite removelast_cons_head.
  change (map f (a :: removelast (b :: l)))
    with (f a :: map f (removelast (b :: l))).
  rewrite IH. reflexivity.
Qed.

Lemma not_hit_NoDup (s : Snake.t) (p : Position.t) (r : list Position.t) :
  Snake._segments s = p :: r ->
  ~ head_hits_body s ->
  NoDup (map coords r) ->
  NoDup (map coords (Snake._segments s)).
Proof.
  intros Es Hn Hr. rewrite Es. cbn [map]. constructor; [|exact Hr].
  intros Hin. apply in_map_iff in Hin as (q & E & Hq).
  apply In_nth_error in Hq as (i & Hi). apply Hn.
  exists p, (S i), q. unfold Snake.head. rewrite Es. cbn.
  repeat split; trivial. lia.
Qed.

Lemma deliver_no_overlap (e : Event) (app app' : AppComponent.t) (n n' : nat) :
  app_ok app n -> no_overlap app ->
  deliver e app n = Returns (app', n') ->
  no_overlap app'.
Proof.
  intros Hok Hno. pose proof Hok as (Hm & Hdis & Hdead & Hover). unfold deliver.
  destruct (AppComponent.gameOver app) eqn:G; [intros [= <- <-]; exact Hno|].
  destruct e as [key|r1 r2].
  - unfold ret. intros [= <- <-]. unfold AppComponent.handleUserInput.
    destruct (AppComponent.getNewDirection key); [|exact Hno].
    destruct (Direction.isTurn _ _); exact Hno.
  - intros T.
    pose proof (AppComponent_tick_ok _ _ _ _ _ _ Hok G T) as (_ & _ & Hdead' & _).
    assert (Halive : is_dead app = false) by (unfold is_dead; congruence).
    specialize (Hno Halive).
    unfold AppComponent.tick, bind in T.
    destruct (Snake.tick (AppComponent._snake app) n) as [[s1 n1]| |] eqn:T1;
      try discriminate.
    destruct Hm as (h & Hh & Hc).
    destruct (tick_returns _ h n Hh Hc) as (p & _ & _ & _ & T2).
    rewrite T1 in T2.
    assert (Es : exists r, Snake._segments s1 = p :: r /\ NoDup (map coords r)).
    { injection T2 as -> _. cbn [Snake._segments]. unfold Snake.head in Hh.
      destruct (Snake._food (AppComponent._snake app) >? 0).
      - eauto.
      - destruct (Snake._segments (AppComponent._snake app)) as [|h' rest];
          [discriminate|].
        exists (removelast (h' :: rest)). split; [reflexivity|].
        rewrite map_removelast. apply NoDup_removelast, Hno. }
    destruct Es as (r & Es & Hr).
    assert (Hfinal : Snake._segments (AppComponent._snake app')
                     = Snake._segments s1).
    { cbv zeta in T.
      destruct (Position.equals _ _).
      - destruct (CheeseFactory.createCheese _ _ _ _ _) as [[cheese n2]| |];
          try discriminate.
        unfold ret in T. injection T as <- _. cbn.
        destruct (AppComponent.self_collision s1); reflexivity.
      - unfold ret in T. injection T as <- _. cbn.
        destruct (AppComponent.self_collision s1); reflexivity. }
    intros Ha'. unfold is_dead in Ha'.
    apply (not_hit_NoDup _ p r); [rewrite Hfinal; exact Es | | exact Hr].
    intros Hhit. apply Hdead' in Hhit. congruence.
Qed.

Lemma game0_no_overlap : no_overlap game0.
Proof. intros _. cbn. constructor; [intros []|constructor]. Qed.

(** X16. While the snake is alive no two of its segments share a cell.
    Along every run of key presses and timer ticks from a state in which
    this holds (as after [initGame]), after every event either the snake
    is dead or the coordinates of its segments are pairwise different. *)
Theorem alive_snake_never_overlaps (events : list Event) (app0 : AppComponent.t)
  (n0 : nat) (history : list AppComponent.t) (n' : nat) :
  app_ok app0 n0 ->
  no_overlap app0 ->
  run events app0 n0 = Returns (history, n') ->
  forall app, In app history ->
    Snake._dead (AppComponent._snake app) = true \/
    NoDup (map coords (Snake._segments (AppComponent._snake app))).
Proof.
  intros Hok Hno R app Hin.
  apply In_nth_error in Hin as (k & Hk).
  destruct (nth_error_before app0 history k app Hk) as (before & Hb).
  destruct (run_preserves no_overlap deliver_no_overlap events app0 n0
              history n' Hok Hno R k before app Hb Hk)
    as (_ & _ & _ & _ & _ & _ & _ & _ & Hfree).
  destruct (Snake._dead (AppComponent._snake app)) eqn:D; [auto|].
  right. apply Hfree. exact D.
Qed.

Lemma alive_snake_never_overlaps_witness :
  exists history n',
    run eating_run game0 2%nat = Returns (history, n') /\
    forall app, In app history ->
      Snake._dead (AppComponent._snake app) = true \/
      NoDup (map coords (Snake._segments (AppComponent._snake app))).
Proof.
  assert (R : exists history n',
            run eating_run game0 2%nat = Returns (history, n')).
  { eexists. eexists. vm_compute. reflexivity. }
  destruct R as (history & n' & R).
  exists history, n'. split; [exact R|].
  exact (alive_snake_never_overlaps eating_run game0 2%nat history n'
           game0_ok game0_no_overlap R).
Defined.
